(** * job_bot.py: the job digest pipeline

    A shallow embedding of [src/job_bot.py]: configuration from the
    environment, the per-company search loop with result normalisation,
    deduplication and truncation, outreach enrichment, the HTML digest and
    its delivery.  Python values are modelled explicitly, exceptions are
    values, and every call that leaves the process (search API, language
    model, mail relay, clock) goes through an oracle over an abstract
    world and is recorded in a trace. *)

From Stdlib Require Import Ascii String ZArith Lia.
From stdpp Require Import gmap strings list fin_maps pretty sorting.

Set Warnings "-register-all".
Set Default Proof Using "Type".

(** ** Python strings *)

(** A Python [str] is a sequence of Unicode code points. *)
Abbreviation str := (list N).

(** ASCII literal of the source, as code points. *)
Definition lit (s : string) : str :=
  (λ a, N_of_ascii a) <$> list_ascii_of_string s.

Global Arguments lit : simpl never.

(** The double quote character, and a literal in which a backquote stands
    for it (the HTML templates of the source are full of double quotes). *)
Definition dquote : str := [34%N].

Definition tmpl (s : string) : str :=
  (λ c, if (c =? 96)%N then 34%N else c) <$> lit s.

Global Arguments tmpl : simpl never.

(** [str.isspace] for one code point: the white-space table of CPython
    ([_PyUnicode_IsWhitespace]). *)
Definition isspace (c : N) : bool :=
  ((9 <=? c) && (c <=? 13) || (28 <=? c) && (c <=? 32)
   || (c =? 133) || (c =? 160) || (c =? 5760)
   || (8192 <=? c) && (c <=? 8202)
   || (c =? 8232) || (c =? 8233) || (c =? 8239) || (c =? 8287)
   || (c =? 12288))%N.

Fixpoint lstrip (s : str) : str :=
  match s with
  | c :: r => if isspace c then lstrip r else s
  | [] => []
  end.

(** [s.strip()] *)
Definition strip (s : str) : str := reverse (lstrip (reverse (lstrip s))).

(** [s.split(sep)] for a one-character separator. *)
Fixpoint split (sep : N) (s : str) : list str :=
  match s with
  | [] => [[]]
  | c :: r =>
      if (c =? sep)%N then [] :: split sep r
      else match split sep r with
           | h :: t => (c :: h) :: t
           | [] => [[c]]
           end
  end.

(** [s.replace(old, new)] for a one-character [old]. *)
Definition replace (old : N) (new : str) (s : str) : str :=
  mjoin ((λ c, if (c =? old)%N then new else [c]) <$> s).

(** [html.escape(s)] with its default [quote=True]: five replacements in
    the library's order. *)
Definition html_escape (s : str) : str :=
  replace 39 (lit "&#x27;")
    (replace 34 (lit "&quot;")
      (replace 62 (lit "&gt;")
        (replace 60 (lit "&lt;")
          (replace 38 (lit "&amp;") s)))).

(** [str(n)] for a length or an index. *)
Definition str_of_nat (n : nat) : str := lit (pretty n).

(** ** JSON values as Python objects *)

(** What [r.json()] returns: [None], [bool], [int], [str], [list], [dict].
    Numbers are integers; non-integral numbers are outside the model. *)
Inductive json :=
| JNull
| JBool (b : bool)
| JInt (n : Z)
| JStr (s : str)
| JArr (l : list json)
| JObj (m : gmap str json).

Inductive pytype := TNone | TBool | TInt | TStr | TList | TDict.

Definition type_of (v : json) : pytype :=
  match v with
  | JNull => TNone | JBool _ => TBool | JInt _ => TInt
  | JStr _ => TStr | JArr _ => TList | JObj _ => TDict
  end.

(** Exceptions, all of them subclasses of [Exception]. *)
Inductive exn :=
| AttributeError (obj : pytype) (attr : string)
| NotSubscriptable (obj : pytype)          (* TypeError *)
| NotIterable (obj : pytype)               (* TypeError *)
| Unhashable (obj : pytype)                (* TypeError *)
| BadSubscript (obj : pytype)              (* KeyError or TypeError: d[0], d[:n] *)
| IndexError
| ValueError (s : str)                     (* int() on a non-number *)
| NoneArgument                             (* TypeError: None where a str is needed *)
| External (text : str).                   (* raised by requests, openai, smtplib *)

(** Pure Python expressions either give a value or raise. *)
Abbreviation exc := (sum exn).

Global Instance exc_ret : MRet exc := λ A, inr.
Global Instance exc_bind : MBind exc := λ A B f x,
  match x with inl e => inl e | inr a => f a end.

(** Truth value of an object, as [or], [if] and [not] test it. *)
Definition truthy (v : json) : bool :=
  match v with
  | JNull => false
  | JBool b => b
  | JInt n => negb (n =? 0)%Z
  | JStr s => negb (bool_decide (s = []))
  | JArr l => match l with [] => false | _ => true end
  | JObj m => negb (bool_decide (size m = 0))
  end.

(** [a or b] *)
Definition py_or (a b : json) : json := if truthy a then a else b.

(** [v.get(k, d)]: only a dict has the method. *)
Definition py_get (v : json) (k : string) (d : json) : exc json :=
  match v with
  | JObj m => inr (default d (m !! lit k))
  | _ => inl (AttributeError (type_of v) "get")
  end.

(** [v[0]] *)
Definition py_first (v : json) : exc json :=
  match v with
  | JArr (x :: _) => inr x
  | JStr (c :: _) => inr (JStr [c])
  | JArr [] | JStr [] => inl IndexError
  | JObj _ => inl (BadSubscript TDict)
  | _ => inl (NotSubscriptable (type_of v))
  end.

(** [v[:n]] for [0 <= n], as [gen_outreach] uses it. *)
Definition py_prefix (n : nat) (v : json) : exc json :=
  match v with
  | JStr s => inr (JStr (take n s))
  | JArr l => inr (JArr (take n l))
  | JObj _ => inl (BadSubscript TDict)
  | _ => inl (NotSubscriptable (type_of v))
  end.

(** [for x in v]: the items the loop visits. A dict yields its keys (in an
    order the model does not fix), a string its characters. *)
Definition py_iter (v : json) : exc (list json) :=
  match v with
  | JArr l => inr l
  | JStr s => inr ((λ c, JStr [c]) <$> s)
  | JObj m => inr ((λ kv, JStr kv.1) <$> map_to_list m)
  | _ => inl (NotIterable (type_of v))
  end.

(** [l[:n]] on a list, for any integer [n]: a negative bound counts from
    the end. *)
Definition slice_to {A} (n : Z) (l : list A) : list A :=
  if (0 <=? n)%Z then take (Z.to_nat n) l
  else take (Z.to_nat (Z.of_nat (length l) + n)) l.

(** ** Job records *)

(** The dict built at lines 84-93, with the [outreach] key added by the
    enrichment loop ([None] while the key is absent). *)
Record job := Job {
  title : json;
  company_name : json;
  location : json;
  via : json;
  extensions : json;
  description : json;
  apply_link : json;
  job_id : json;
  outreach : option str;
}.

Definition set_outreach (o : str) (j : job) : job :=
  Job (title j) (company_name j) (location j) (via j) (extensions j)
      (description j) (apply_link j) (job_id j) (Some o).

(** Lines 95-100: the apply link of a raw item (a dict at this point). *)
Definition pick_apply_link (item : json) : exc json :=
  ao ← py_get item "apply_options" JNull;
  let apply_options := py_or ao (JArr []) in
  if truthy apply_options then
    first ← py_first apply_options;
    py_get first "link" JNull
  else
    rl ← py_get item "related_links" JNull;
    first ← py_first (py_or rl (JArr [JObj ∅]));
    link ← py_get first "link" JNull;
    if truthy link then mret link else py_get item "share_link" JNull.

(** Lines 84-101: one raw item to one record, for the company queried. *)
Definition normalize (company : str) (item : json) : exc job :=
  t ← py_get item "title" JNull;
  c ← py_get item "company_name" (JStr company);
  l ← py_get item "location" JNull;
  ext ← py_get item "detected_extensions" (JObj ∅);
  v ← py_get ext "via" JNull;
  d ← py_get item "description" (JStr []);
  i ← py_get item "job_id" JNull;
  a ← pick_apply_link item;
  mret (Job t c l v ext d a i None).

(** ** Deduplication and truncation (lines 108-117) *)

(** Keys of the [seen] set.  Python compares and hashes [True] as [1] and
    [False] as [0]; lists and dicts are unhashable. *)
Inductive atom := ANone | AInt (n : Z) | AStr (s : str).

Global Instance atom_eq_dec : EqDecision atom.
Proof. solve_decision. Defined.

Global Instance atom_countable : Countable atom.
Proof.
  refine (inj_countable'
    (λ a, match a with
          | ANone => inl () | AInt n => inr (inl n) | AStr s => inr (inr s)
          end)
    (λ x, match x with
          | inl _ => ANone | inr (inl n) => AInt n | inr (inr s) => AStr s
          end) _).
  by intros [].
Defined.

Definition hashable (v : json) : exc atom :=
  match v with
  | JNull => inr ANone
  | JBool b => inr (AInt (if b then 1 else 0))
  | JInt n => inr (AInt n)
  | JStr s => inr (AStr s)
  | JArr _ | JObj _ => inl (Unhashable (type_of v))
  end.

(** [key = (j.get("title"), j.get("company_name"))], as the set sees it. *)
Definition job_key (j : job) : exc (atom * atom) :=
  t ← hashable (title j);
  c ← hashable (company_name j);
  mret (t, c).

(** The loop of lines 111-116, with its two variables [seen], [deduped]. *)
Fixpoint dedup_loop (seen : gset (atom * atom)) (deduped jobs : list job)
  : exc (list job) :=
  match jobs with
  | [] => inr deduped
  | j :: rest =>
      key ← job_key j;
      if bool_decide (key ∈ seen) then dedup_loop seen deduped rest
      else dedup_loop ({[key]} ∪ seen) (deduped ++ [j]) rest
  end.

Definition dedup (jobs : list job) : exc (list job) := dedup_loop ∅ [] jobs.

(** Lines 108-117: [jobs = deduped[:MAX_RESULTS]]. *)
Definition dedup_truncate (MAX_RESULTS : Z) (jobs : list job)
  : exc (list job) :=
  deduped ← dedup jobs;
  mret (slice_to MAX_RESULTS deduped).

(** ** Effects *)

(** What [gen_outreach] sends: the f-string of lines 43-45 is a fixed text
    around the title, the company and [repr] of the description snippet. *)
Record prompt := Prompt {
  prompt_title : json;
  prompt_company : json;
  prompt_snippet : json;
}.

(** Observable actions of a run, in the order they happen. *)
Inductive event :=
| EvStderr (line : str)                            (* print(..., file=sys.stderr) *)
| EvStdout (line : str)                            (* print(...) *)
| EvHttpGet (url : str) (params : list (str * str)) (* requests.get *)
| EvSleep                                          (* time.sleep(0.8) *)
| EvChat (api_key : str) (p : prompt)              (* chat.completions.create *)
| EvSmtp (user password to_email subject body : str). (* SMTP_SSL login, sendmail *)

(** A network call is a search, a language-model or a mail call. *)
Definition is_network (ev : event) : bool :=
  match ev with
  | EvHttpGet _ _ | EvChat _ _ | EvSmtp _ _ _ _ _ => true
  | _ => false
  end.

(** The query of a search call. *)
Definition search_query (ev : event) : option str :=
  match ev with
  | EvHttpGet _ params => snd <$> list_find (λ p, p.1 = lit "q") params ≫= λ x, Some x.2
  | _ => None
  end.

(** What the script takes from the Python runtime and from outside the
    process, over a world [W] that the calls may change. *)
Class Runtime (W : Type) := {
  (** lines 28-30: the GET, [raise_for_status] and [r.json()] *)
  requests_get_json : str → list (str * str) → W → exc json * W;
  (** lines 35-36: [None] when both imports succeed *)
  import_openai : W → option exn;
  (** line 39: [OpenAI(api_key=...)] *)
  openai_client : str → W → exc unit * W;
  (** lines 46-52: the request and [resp.choices[0].message.content] *)
  chat_completion : str → prompt → W → exc json * W;
  (** lines 55-63: building the message, login and [sendmail] *)
  smtp_send : str → str → str → str → str → W → exc unit * W;
  (** lines 17-18: the clock, formatted *)
  now_ist : W → str * W;
  (** [int(s)] on a string, [None] for [ValueError] *)
  py_int : str → option Z;
  (** [str(e)] *)
  str_of_exn : exn → str;
}.

Section Script.
Context {W : Type} `{!Runtime W}.

(** The interpreter state the script changes: the outside world, the
    trace of observable actions, and the list object [jobs] of line 78,
    which the search loop appends to in place. *)
Record state := State {
  world : W;
  trace : list event;
  st_jobs : list job;
}.

(** How a statement ends: normally, by an exception, or by [sys.exit]
    ([SystemExit] is not an [Exception] and passes [except Exception]). *)
Inductive outcome (A : Type) :=
| Ret (a : A)
| Raise (e : exn)
| Exit (code : Z).
Global Arguments Ret {A} a.
Global Arguments Raise {A} e.
Global Arguments Exit {A} code.

Definition M (A : Type) : Type := state → outcome A * state.

Global Instance M_ret : MRet M := λ A a s, (Ret a, s).
Global Instance M_bind : MBind M := λ A B f m s,
  match m s with
  | (Ret a, s') => f a s'
  | (Raise e, s') => (Raise e, s')
  | (Exit c, s') => (Exit c, s')
  end.

Definition raise {A} (e : exn) : M A := λ s, (Raise e, s).
Definition sys_exit {A} (code : Z) : M A := λ s, (Exit code, s).

Definition emit (ev : event) : M unit :=
  λ s, (Ret (), State (world s) (trace s ++ [ev]) (st_jobs s)).

(** A pure expression inside a statement. *)
Definition lift {A} (x : exc A) : M A :=
  match x with inl e => raise e | inr a => mret a end.

(** A call that leaves the process. *)
Definition call {A} (f : W → exc A * W) : M A :=
  λ s, let '(r, w) := f (world s) in
       lift r (State w (trace s) (st_jobs s)).

(** [try: m except Exception as e: h e].  What [m] did to the state before
    it raised stays done. *)
Definition try_except {A} (m : M A) (h : exn → M A) : M A :=
  λ s, match m s with
       | (Raise e, s') => h e s'
       | r => r
       end.

(** [jobs.append(j)] and [len(jobs)] on the list of line 78. *)
Definition append_job (j : job) : M unit :=
  λ s, (Ret (), State (world s) (trace s) (st_jobs s ++ [j])).

Definition get_jobs : M (list job) := λ s, (Ret (st_jobs s), s).

(** Lines 9-14, over the process environment [environ]. *)
Definition env (environ : gmap str str) (name : string)
    (default : option str) (required : bool) : M (option str) :=
  let v := match environ !! lit name with Some x => Some x | None => default end in
  if required && match v with
                 | None => true
                 | Some x => bool_decide (strip x = [])
                 end
  then emit (EvStderr (lit "Missing required env var: " ++ lit name));;
       sys_exit 1
  else mret v.

(** Lines 16-18. *)
Definition ist_now_str : M str :=
  λ s, let '(t, w) := now_ist (world s) in
       (Ret t, State w (trace s) (st_jobs s)).

(** Lines 20-30. *)
Definition google_jobs_search (api_key query : str) : M json :=
  let url := lit "https://serpapi.com/search.json" in
  let params := [ (lit "engine", lit "google_jobs");
                  (lit "q", query);
                  (lit "hl", lit "en");
                  (lit "api_key", api_key) ] in
  emit (EvHttpGet url params);;
  call (requests_get_json url params).

(** [content.strip()]: only a string has the method. *)
Definition py_strip (v : json) : exc str :=
  match v with
  | JStr s => inr (strip s)
  | _ => inl (AttributeError (type_of v) "strip")
  end.

(** Lines 32-52. *)
Definition gen_outreach (openai_key : str) (j : job) : M str :=
  imp ← (λ s, (Ret (import_openai (world s)), s));
  match imp with
  | Some e =>
      mret (lit "Install openai>=1.0.0 to generate messages. Error: "
            ++ str_of_exn e)
  | None =>
      call (openai_client openai_key);;
      let company := company_name j in
      let title := title j in
      snippet ← lift (py_prefix 240 (description j));
      let p := Prompt title company snippet in
      emit (EvChat openai_key p);;
      content ← call (chat_completion openai_key p);
      lift (py_strip content)
  end.

(** Lines 54-63. *)
Definition send_email (gmail_user app_password to_email subject html_body : str)
  : M unit :=
  emit (EvSmtp gmail_user app_password to_email subject html_body);;
  call (smtp_send gmail_user app_password to_email subject html_body).

(** ** Configuration (lines 67-76) *)

Record config := Config {
  SERPAPI_KEY : str;
  OPENAI_API_KEY : option str;
  GMAIL_USER : str;
  GMAIL_APP_PASSWORD : str;
  TO_EMAIL : str;
  MAX_RESULTS : Z;
  COMPANIES : list str;
  ROLE_QUERY : str;
  SITES_HINT : str;
  DAYS : Z;
}.

(** A value of [env] used where a string is needed.  [env] gives [None]
    only for a variable that is neither required nor defaulted, and only
    [OPENAI_API_KEY] is read that way, so the [None] case is not reached
    from [main]. *)
Definition the_str (v : option str) : M str :=
  match v with Some s => mret s | None => raise NoneArgument end.

(** [int(v)] *)
Definition int (v : option str) : M Z :=
  s ← the_str v;
  match py_int s with Some n => mret n | None => raise (ValueError s) end.

(** Line 73: [[c.strip() for c in s.split(",") if c.strip()]] *)
Definition parse_companies (s : str) : list str :=
  strip <$> filter (λ c, strip c ≠ []) (split 44 s).

Definition default_companies : str :=
  lit "Google, Meta, Amazon, Apple, Netflix, Microsoft, OpenAI, Stripe, Databricks, DoorDash, Airbnb, Uber".

Definition default_role_query : str :=
  lit "entry level OR new grad full stack OR software engineer".

Definition default_sites_hint : str :=
  lit "site:boards.greenhouse.io OR site:jobs.lever.co OR site:careers.microsoft.com OR site:amazon.jobs OR site:meta.com/careers OR site:apple.com/careers OR site:google.com/about/careers OR site:netflixjobs.com OR site:about.google".

Definition load_config (environ : gmap str str) : M config :=
  serpapi_key ← env environ "SERPAPI_KEY" None true ≫= the_str;
  openai_api_key ← env environ "OPENAI_API_KEY" None false;
  gmail_user ← env environ "GMAIL_USER" None true ≫= the_str;
  gmail_app_password ← env environ "GMAIL_APP_PASSWORD" None true ≫= the_str;
  to_email ← env environ "TO_EMAIL" None true ≫= the_str;
  max_results ← env environ "MAX_RESULTS" (Some (lit "20")) false ≫= int;
  companies ← env environ "COMPANIES" (Some default_companies) false ≫= the_str;
  role_query ← env environ "ROLE_QUERY" (Some default_role_query) false ≫= the_str;
  sites_hint ← env environ "SITES_HINT" (Some default_sites_hint) false ≫= the_str;
  days ← env environ "DAYS" (Some (lit "2")) false ≫= int;
  mret (Config serpapi_key openai_api_key gmail_user gmail_app_password
               to_email max_results (parse_companies companies)
               role_query sites_hint days).

(** ** The search loop (lines 78-106) *)

Section Run.
Variable cfg : config.

(** Line 80: [f'{ROLE_QUERY} "{company}" ({SITES_HINT})'] *)
Definition build_query (company : str) : str :=
  ROLE_QUERY cfg ++ lit " " ++ dquote ++ company ++ dquote
  ++ lit " (" ++ SITES_HINT cfg ++ lit ")".

(** Lines 83-101: normalise and append, item by item. *)
Fixpoint normalize_items (company : str) (items : list json) : M unit :=
  match items with
  | [] => mret ()
  | item :: rest =>
      j ← lift (normalize company item);
      append_job j;;
      normalize_items company rest
  end.

(** Lines 82-101: the body of the [try]. *)
Definition search_company (company : str) : M unit :=
  data ← google_jobs_search (SERPAPI_KEY cfg) (build_query company);
  results ← lift (py_get data "jobs_results" (JArr []));
  items ← lift (py_iter results);
  normalize_items company items.

(** Line 103. *)
Definition warn (company : str) (e : exn) : M unit :=
  emit (EvStderr (lit "[warn] " ++ company ++ lit " query failed: "
                  ++ str_of_exn e)).

(** Lines 80-104: one iteration, up to the test of the cap. *)
Definition company_step (company : str) : M unit :=
  try_except (search_company company) (warn company);;
  emit EvSleep.

(** Lines 79-106. *)
Fixpoint aggregate (companies : list str) : M unit :=
  match companies with
  | [] => mret ()
  | company :: rest =>
      company_step company;;
      jobs ← get_jobs;
      if (MAX_RESULTS cfg <=? Z.of_nat (length jobs))%Z then mret ()
      else aggregate rest
  end.

(** ** Outreach messages (lines 119-127) *)

Definition no_key_outreach : str :=
  lit "(Set OPENAI_API_KEY to auto-generate outreach messaging.)".

Definition error_outreach (e : exn) : str :=
  lit "(Generate later) Error using OpenAI API: " ++ str_of_exn e.

(** [if OPENAI_API_KEY:] a key that is [None] or empty counts as absent. *)
Definition key_set (k : option str) : option str :=
  match k with
  | Some (c :: r) => Some (c :: r)
  | _ => None
  end.

Definition outreach_for (j : job) : M str :=
  match key_set (OPENAI_API_KEY cfg) with
  | Some k =>
      try_except (gen_outreach k j) (λ e, mret (error_outreach e))
  | None => mret no_key_outreach
  end.

Fixpoint add_outreach (jobs : list job) : M (list job) :=
  match jobs with
  | [] => mret []
  | j :: rest =>
      o ← outreach_for j;
      rest' ← add_outreach rest;
      mret (set_outreach o j :: rest')
  end.

(** ** The digest (lines 129-175) *)

Definition emdash : str := [8212%N].

(** [html.escape(v)]: a value without [replace] raises. *)
Definition py_escape (v : json) : exc str :=
  match v with
  | JStr s => inr (html_escape s)
  | _ => inl (AttributeError (type_of v) "replace")
  end.

(** ["\n".join(rows)] *)
Fixpoint join (sep : str) (rows : list str) : str :=
  match rows with
  | [] => []
  | [r] => r
  | r :: rest => r ++ sep ++ join sep rest
  end.

(** Lines 132-152: one table row. *)
Definition render_row (n : nat) (j : job) : exc str :=
  title ← py_escape (py_or (title j) (JStr []));
  comp ← py_escape (py_or (company_name j) (JStr []));
  loc ← py_escape (py_or (location j) (JStr []));
  link ← py_escape (py_or (apply_link j) (JStr (lit "#")));
  stripped ← py_strip (py_or (description j) (JStr []));
  let desc := replace 10 (lit " ") (html_escape (take 420 stripped)) in
  let outreach :=
    replace 10 (lit "<br>") (html_escape (default [] (outreach j))) in
  let idx := str_of_nat n in
  mret (tmpl "
        <tr>
          <td style=`padding:8px; border-bottom:1px solid #eee; vertical-align:top;`>"
  ++ idx
  ++ tmpl "</td>
          <td style=`padding:8px; border-bottom:1px solid #eee; vertical-align:top;`>
            <div style=`font-weight:600`>"
  ++ title
  ++ tmpl "</div>
            <div style=`color:#555`>"
  ++ comp
  ++ tmpl " "
  ++ emdash
  ++ tmpl " "
  ++ loc
  ++ tmpl "</div>
            <div style=`margin-top:6px; font-size:13px; color:#444`>"
  ++ desc
  ++ tmpl "</div>
            <div style=`margin-top:6px`><a href=`"
  ++ link
  ++ tmpl "`>Apply Link</a></div>
            <div style=`margin-top:10px; font-size:13px;`>
              <div style=`font-weight:600; margin-bottom:4px;`>DM draft:</div>
              <div>"
  ++ outreach
  ++ tmpl "</div>
            </div>
          </td>
        </tr>
        ").

(** Lines 130-152: [for idx, j in enumerate(jobs, 1)]. *)
Fixpoint render_rows (n : nat) (jobs : list job) : exc (list str) :=
  match jobs with
  | [] => mret []
  | j :: rest =>
      row ← render_row n j;
      rows ← render_rows (S n) rest;
      mret (row :: rows)
  end.

(** Lines 154-157. *)
Definition rows_html_of (rows : list str) : str :=
  match rows with
  | [] => tmpl "<tr><td colspan=`2` style=`padding:12px;`>No fresh roles found today. Try widening COMPANIES or ROLE_QUERY.</td></tr>"
  | _ => join [10%N] rows
  end.

(** Line 159. *)
Definition subject_of (count : nat) (now : str) : str :=
  lit "[Daily SDE Digest] " ++ str_of_nat count ++ lit " roles "
  ++ emdash ++ lit " " ++ now.

(** Lines 160-175. *)
Definition html_body_of (now rows_html : str) : str :=
  tmpl "<div style=`font-family:Inter,Arial,sans-serif; line-height:1.45;`>
      <h2 style=`margin:0 0 8px;`>Entry-level SDE / Full-Stack Roles</h2>
      <div style=`font-size:13px; color:#666; margin-bottom:12px;`>Generated at "
  ++ now
  ++ tmpl "</div>
      <table cellpadding=`0` cellspacing=`0` width=`100%` style=`border-collapse:collapse;`>
        <thead>
          <tr>
            <th style=`text-align:left; padding:8px; border-bottom:2px solid #000;`>#</th>
            <th style=`text-align:left; padding:8px; border-bottom:2px solid #000;`>Role</th>
          </tr>
        </thead>
        <tbody>
          "
  ++ rows_html
  ++ tmpl "
        </tbody>
      </table>
      <div style=`margin-top:16px; font-size:12px; color:#666;`>Tip: Tweak COMPANIES / ROLE_QUERY in env to refine.</div>
    </div>".

(** ** The run (lines 78-178) *)

Definition run : M unit :=
  (λ s, (Ret (), State (world s) (trace s) []));;
  aggregate (COMPANIES cfg);;
  jobs ← get_jobs;
  jobs ← lift (dedup_truncate (MAX_RESULTS cfg) jobs);
  jobs ← add_outreach jobs;
  rows ← lift (render_rows 1 jobs);
  let rows_html := rows_html_of rows in
  now ← ist_now_str;
  let subject := subject_of (length jobs) now in
  now' ← ist_now_str;
  let html_body := html_body_of now' rows_html in
  send_email (GMAIL_USER cfg) (GMAIL_APP_PASSWORD cfg) (TO_EMAIL cfg)
             subject html_body;;
  emit (EvStdout (lit "Sent digest to " ++ TO_EMAIL cfg ++ lit " with "
                  ++ str_of_nat (length jobs) ++ lit " jobs.")).

End Run.

(** Lines 66-178. *)
Definition main (environ : gmap str str) : M unit :=
  cfg ← load_config environ;
  run cfg.

(** The state a process starts in. *)
Definition start (w : W) : state := State w [] [].

End Script.

(** ** Notions the statements use *)

(** The identity of a record for deduplication. *)
Definition identity (j : job) : json * json := (title j, company_name j).

(** A title or company name as the data model types it: a string, or
    null. *)
Definition nullable_str (v : json) : Prop :=
  match v with JNull | JStr _ => True | _ => False end.

Definition well_keyed (j : job) : Prop :=
  nullable_str (title j) ∧ nullable_str (company_name j).

(** The link field of the first entry of a raw list, when there is one. *)
Definition entry_link (v : json) : option json :=
  match v with
  | JArr (JObj e :: _) => e !! lit "link"
  | _ => None
  end.

(** The apply link as a chain over the three sources, each used when it is
    present: first entry of the apply options, first entry of the related
    links, share link, else null. *)
Definition apply_link_chain (m : gmap str json) : json :=
  match m !! lit "apply_options" ≫= entry_link with
  | Some l => l
  | None =>
      match m !! lit "related_links" ≫= entry_link with
      | Some l => l
      | None => default JNull (m !! lit "share_link")
      end
  end.

(** The records of the items before the first one that fails to
    normalise, and that failure. *)
Fixpoint normalized_before (company : str) (items : list json)
  : list job * option exn :=
  match items with
  | [] => ([], None)
  | item :: rest =>
      match normalize company item with
      | inl e => ([], Some e)
      | inr j =>
          let '(js, r) := normalized_before company rest in (j :: js, r)
      end
  end.

(** The search calls of a trace. *)
Definition is_search (ev : event) : bool :=
  match ev with EvHttpGet _ _ => true | _ => false end.

Definition search_calls (tr : list event) : list event :=
  filter (λ ev, is_search ev = true) tr.

(** The call [google_jobs_search] makes for a query. *)
Definition search_url : str := lit "https://serpapi.com/search.json".

Definition search_params (api_key query : str) : list (str * str) :=
  [ (lit "engine", lit "google_jobs"); (lit "q", query);
    (lit "hl", lit "en"); (lit "api_key", api_key) ].

Definition search_event (cfg : config) (company : str) : event :=
  EvHttpGet search_url
    (search_params (SERPAPI_KEY cfg) (build_query cfg company)).

(** The variables [main] reads with [required=True], in its order. *)
Definition required_vars : list string :=
  ["SERPAPI_KEY"; "GMAIL_USER"; "GMAIL_APP_PASSWORD"; "TO_EMAIL"]%string.

Definition missing_or_blank (environ : gmap str str) (name : string) : Prop :=
  match environ !! lit name with
  | None => True
  | Some v => strip v = []
  end.

(** The day-window value a run reads: the variable, or its default. *)
Definition days_value (environ : gmap str str) : str :=
  default (lit "2") (environ !! lit "DAYS").

(** ** A scripted runtime

    A test double: the world is the queue of responses the search endpoint
    will give; the language model always fails; mail always succeeds. *)

Definition digit_value (c : N) : option Z :=
  if ((48 <=? c) && (c <=? 57))%N then Some (Z.of_N c - 48)%Z else None.

Definition decimal (s : str) : option Z :=
  match s with
  | [] => None
  | _ => foldl (λ acc c, a ← acc; d ← digit_value c; Some (10 * a + d)%Z)
               (Some 0%Z) s
  end.

Definition scripted : Runtime (list (exc json)) := {|
  requests_get_json _ _ w :=
    match w with
    | r :: rest => (r, rest)
    | [] => (inl (External (lit "connection refused")), [])
    end;
  import_openai _ := None;
  openai_client _ w := (inr (), w);
  chat_completion _ _ w := (inl (External (lit "rate limit")), w);
  smtp_send _ _ _ _ _ w := (inr (), w);
  now_ist w := (lit "2025-01-01 09:00 IST", w);
  py_int := decimal;
  str_of_exn e := match e with External t => t | _ => lit "error" end;
|}.

(** Sample data. *)
Definition obj (fields : list (string * json)) : json :=
  JObj (list_to_map ((λ kv, (lit kv.1, kv.2)) <$> fields)).

Definition text (s : string) : json := JStr (lit s).

Definition sample_env : gmap str str :=
  list_to_map [ (lit "SERPAPI_KEY", lit "k1"); (lit "GMAIL_USER", lit "me@example.org");
                (lit "GMAIL_APP_PASSWORD", lit "pw"); (lit "TO_EMAIL", lit "you@example.org");
                (lit "COMPANIES", lit "Acme, Initech") ].

Definition sample_cfg : config :=
  Config (lit "k1") None (lit "me@example.org") (lit "pw")
         (lit "you@example.org") 20 [lit "Acme"; lit "Initech"]
         (lit "engineer") (lit "site:example.org") 2.

Definition item_related_only : json :=
  obj [ ("title", text "Backend Engineer");
        ("related_links", JArr [obj [("link", text "http://r/1")]]) ]%string.

Definition item_both : json :=
  obj [ ("title", text "Backend Engineer"); ("company_name", text "Acme Corp");
        ("apply_options", JArr [obj [("link", text "http://a/1")]]);
        ("related_links", JArr [obj [("link", text "http://r/1")]]) ]%string.

Definition fields_linkless : gmap str json :=
  list_to_map
    [ (lit "title", text "Backend Engineer");
      (lit "apply_options", JArr [obj [("title", text "Careers page")]%string]);
      (lit "related_links", JArr [obj [("link", text "http://r/1")]%string]);
      (lit "share_link", text "http://s/1") ].

Definition item_linkless : json := JObj fields_linkless.

(** The key of a record whose title and company are hashable. *)
Definition atom_of (v : json) : atom :=
  match hashable v with inr a => a | inl _ => ANone end.

Definition key_of (j : job) : atom * atom :=
  (atom_of (title j), atom_of (company_name j)).

(** The record's key can be put in the [seen] set. *)
Definition keyed (j : job) : Prop := ∃ k, job_key j = inr k.

Definition mk_job (t c i : string) : job :=
  Job (text t) (text c) JNull JNull (JObj ∅) (JStr []) JNull (text i) None.

(** Two postings of one role, and another role. *)
Definition sample_jobs : list job :=
  [ mk_job "Backend Engineer" "Acme" "1";
    mk_job "Backend Engineer" "Acme" "2";
    mk_job "Data Engineer" "Acme" "3" ].

(** What one search response contributes: the records appended before the
    first failure, and that failure. *)
Definition company_records (company : str) (r : exc json)
  : list job * option exn :=
  match data ← r;
        results ← py_get data "jobs_results" (JArr []);
        py_iter results with
  | inl e => ([], Some e)
  | inr items => normalized_before company items
  end.

(** The line [warn] prints. *)
Definition warning `{!Runtime W} (company : str) (e : exn) : event :=
  EvStderr (lit "[warn] " ++ company ++ lit " query failed: " ++ str_of_exn e).

(** The line [env] prints before it exits. *)
Definition missing_line (name : string) : event :=
  EvStderr (lit "Missing required env var: " ++ lit name).

Global Instance missing_or_blank_dec environ name :
  Decision (missing_or_blank environ name).
Proof. unfold missing_or_blank. destruct (environ !! lit name); apply _. Defined.

(** A configuration with another day window. *)
Definition with_days (d : Z) (c : config) : config :=
  Config (SERPAPI_KEY c) (OPENAI_API_KEY c) (GMAIL_USER c)
         (GMAIL_APP_PASSWORD c) (TO_EMAIL c) (MAX_RESULTS c) (COMPANIES c)
         (ROLE_QUERY c) (SITES_HINT c) d.


Definition keyed_cfg : config :=
  Config (lit "k1") (Some (lit "sk-1")) (lit "me@example.org") (lit "pw")
         (lit "you@example.org") 20 [lit "Acme"; lit "Initech"]
         (lit "engineer") (lit "site:example.org") 2.

(** ** Notions for the strings of the configuration *)

(** White space only. *)
Definition blank (s : str) : Prop := Forall (λ c, isspace c = true) s.

(** Neither the first nor the last character is white space. *)
Definition trimmed (s : str) : Prop :=
  (∀ c, head s = Some c → isspace c = false) ∧
  (∀ c, last s = Some c → isspace c = false).

(** A company name as [parse_companies] yields them. *)
Definition company_name_ok (c : str) : Prop :=
  c ≠ [] ∧ (44%N ∉ c) ∧ trimmed c.

(** A value Python cannot hash: a list or a dict. *)
Definition unhashable (v : json) : Prop :=
  match v with JArr _ | JObj _ => True | _ => False end.

(** ** When a raw item can be normalised *)

Definition first_is_dict (v : json) : Prop :=
  match v with JArr (JObj _ :: _) => True | _ => False end.

(** The raw item is a dict; its detected extensions, when the key is
    there, are a dict; and the link source that is consulted is a list
    that starts with a dict (the related links may also be absent, null or
    empty). *)
Definition normalizable (item : json) : Prop :=
  match item with
  | JObj m =>
      match m !! lit "detected_extensions" with
      | None | Some (JObj _) => True
      | Some _ => False
      end ∧
      let ao := default JNull (m !! lit "apply_options") in
      let rl := default JNull (m !! lit "related_links") in
      if truthy ao then first_is_dict ao
      else truthy rl = false ∨ first_is_dict rl
  | _ => False
  end.

(** ** Notions for the effects of the script *)

(** A statement of the configuration phase over [environ]: it leaves the
    state alone and does not exit, or exits with status 1 after the line for a required
    variable that is missing or blank. *)
Definition config_step {W A : Type} (environ : gmap str str) (m : @M W A)
  : Prop :=
  ∀ s r s', m s = (r, s') →
    (s' = s ∧ ∀ c, r ≠ Exit c) ∨
    ∃ name, name ∈ required_vars ∧ missing_or_blank environ name ∧
            r = Exit 1 ∧
            s' = State (world s) (trace s ++ [missing_line name]) (st_jobs s).

(** An environment with the four required variables and a cap that is
    not a number. *)
Definition env_bad_cap : gmap str str :=
  <[lit "MAX_RESULTS" := lit "many"]> sample_env.

(** What the search loop may add to the trace: search calls, warnings
    and sleeps. *)
Definition is_loop_event (ev : event) : bool :=
  match ev with
  | EvHttpGet _ _ | EvStderr _ | EvSleep => true
  | _ => false
  end.

Definition is_sleep (ev : event) : bool :=
  match ev with EvSleep => true | _ => false end.

(** [sample_cfg] with a cap of zero. *)
Definition zero_cfg : config :=
  Config (lit "k1") None (lit "me@example.org") (lit "pw")
         (lit "you@example.org") 0 [lit "Acme"; lit "Initech"]
         (lit "engineer") (lit "site:example.org") 2.

Definition is_chat (ev : event) : bool :=
  match ev with EvChat _ _ => true | _ => false end.

(** What [gen_outreach] returns when [openai] cannot be imported. *)
Definition install_hint `{!Runtime W} (e : exn) : str :=
  lit "Install openai>=1.0.0 to generate messages. Error: " ++ str_of_exn e.

(** The scripted runtime on a machine without the [openai] package. *)
Definition scripted_no_openai : Runtime (list (exc json)) := {|
  requests_get_json := @requests_get_json _ scripted;
  import_openai _ := Some (External (lit "No module named 'openai'"));
  openai_client := @openai_client _ scripted;
  chat_completion := @chat_completion _ scripted;
  smtp_send := @smtp_send _ scripted;
  now_ist := @now_ist _ scripted;
  py_int := decimal;
  str_of_exn := @str_of_exn _ scripted;
|}.

(** A raw item whose description is null. *)
Definition fields_null_description : gmap str json :=
  list_to_map
    [ (lit "title", text "Backend Engineer");
      (lit "description", JNull) ].

(** ** Notions for the digest *)

(** The characters that open or close markup or an attribute value:
    [<], [>], the double and the single quote. *)
Definition markup_chars : list N := [60; 62; 34; 39]%N.

(** A field the row template can show: a string, or a value that counts
    as false and is replaced by the default. *)
Definition str_or_falsy (v : json) : Prop :=
  truthy v = false ∨ ∃ s, v = JStr s.

Definition renderable (j : job) : Prop :=
  str_or_falsy (title j) ∧ str_or_falsy (company_name j) ∧
  str_or_falsy (location j) ∧ str_or_falsy (apply_link j) ∧
  str_or_falsy (description j).

Definition numeric_title_job : job :=
  Job (JInt 2024) (text "Acme") JNull JNull (JObj ∅) (JStr []) JNull JNull None.

(** The mail of a run and its last line (lines 159-178). *)
Definition mail_event (cfg : config) (subject body : str) : event :=
  EvSmtp (GMAIL_USER cfg) (GMAIL_APP_PASSWORD cfg) (TO_EMAIL cfg) subject body.

Definition summary_line (cfg : config) (count : nat) : event :=
  EvStdout (lit "Sent digest to " ++ TO_EMAIL cfg ++ lit " with "
            ++ str_of_nat count ++ lit " jobs.").

(** The table body of a digest without records (line 155). *)
Definition no_roles_row : str :=
  tmpl "<tr><td colspan=`2` style=`padding:12px;`>No fresh roles found today. Try widening COMPANIES or ROLE_QUERY.</td></tr>".

(** The scripted runtime with a language model that answers. *)
Definition scripted_chatty : Runtime (list (exc json)) := {|
  requests_get_json := @requests_get_json _ scripted;
  import_openai _ := None;
  openai_client := @openai_client _ scripted;
  chat_completion _ _ w := (inr (text "  Hello, I would like to apply.  "), w);
  smtp_send := @smtp_send _ scripted;
  now_ist := @now_ist _ scripted;
  py_int := decimal;
  str_of_exn := @str_of_exn _ scripted;
|}.

(** A search response with two well-formed items. *)
Definition world_two_items : list (exc json) :=
  [ inr (obj [("jobs_results", JArr [item_related_only; item_both])]%string) ].

(** ** Notions for deduplication by key *)

(** Position [i] of [jobs] holds a record whose key no earlier record has. *)
Definition first_key_occurrence (jobs : list job) (i : nat) : Prop :=
  ∃ j, jobs !! i = Some j ∧
       ∀ i' j', i' < i → jobs !! i' = Some j' → key_of j' ≠ key_of j.

(** Two records that differ in their title, [0] and [False], which Python
    takes for equal keys; and a record whose title is a list. *)
Definition zero_false_jobs : list job :=
  [ Job (JInt 0) (text "Acme") JNull JNull (JObj ∅) (JStr []) JNull
        (text "1") None;
    Job (JBool false) (text "Acme") JNull JNull (JObj ∅) (JStr []) JNull
        (text "2") None ].

Definition list_title_jobs : list job :=
  [ Job (JArr [text "Backend Engineer"]) (text "Acme") JNull JNull (JObj ∅)
        (JStr []) JNull (text "1") None ].



(* ================================================================= *)
(** * Properties *)

(** ** Pure expressions *)

Lemma exc_bind_inr {A B} (f : A → exc B) (x : exc A) (b : B) :
  x ≫= f = inr b → ∃ a, x = inr a ∧ f a = inr b.
Proof. destruct x as [e|a]; [done|]. intros H. by exists a. Qed.

Lemma py_get_inr v k d r :
  py_get v k d = inr r → ∃ m, v = JObj m ∧ r = default d (m !! lit k).
Proof. destruct v; try done. intros [= <-]. by eexists. Qed.

Lemma py_first_get_inr v k r :
  py_first v ≫= (λ x, py_get x k JNull) = inr r →
  ∃ e rest, v = JArr (JObj e :: rest) ∧ r = default JNull (e !! lit k).
Proof.
  intros H. apply exc_bind_inr in H as (x & Hx & H).
  apply py_get_inr in H as (e & -> & ->).
  destruct v as [| | |[|c s]|[|y l]|]; simplify_eq/=. by eexists _, _.
Qed.

(** ** Normalisation *)

(** What a successful [pick_apply_link] returns, by the shape of the raw
    fields. *)
Lemma pick_apply_link_inr m a :
  pick_apply_link (JObj m) = inr a →
  let ao := default JNull (m !! lit "apply_options") in
  if truthy ao then
    ∃ e rest, ao = JArr (JObj e :: rest) ∧ a = default JNull (e !! lit "link")
  else
    let l := default JNull
               (entry_link (default JNull (m !! lit "related_links"))) in
    a = if truthy l then l else default JNull (m !! lit "share_link").
Proof.
  unfold pick_apply_link. simpl.
  set (ao := default JNull (m !! lit "apply_options")).
  set (rl := default JNull (m !! lit "related_links")).
  unfold py_or. destruct (truthy ao) eqn:Hao; simpl.
  - rewrite Hao. apply py_first_get_inr.
  - intros H. apply exc_bind_inr in H as (x & Hx & H).
    apply exc_bind_inr in H as (l & Hl & H).
    apply py_get_inr in Hl as (e & -> & ->).
    assert (entry_link rl = e !! lit "link") as ->.
    { destruct (truthy rl) eqn:Hrl.
      - destruct rl as [| | |[|c s]|[|y t]|]; simplify_eq/=; done.
      - simplify_eq/=. rewrite lookup_empty.
        destruct rl as [| | | |[|y t]|]; simplify_eq/=; done. }
    cbv [mret exc_ret] in H. revert H.
    by destruct (truthy (default JNull (e !! lit "link"))); intros [= <-].
Qed.

(** A normalised record comes from a dict, field by field. *)
Lemma normalize_inr company item j :
  normalize company item = inr j →
  ∃ m, item = JObj m ∧
    pick_apply_link item = inr (apply_link j) ∧
    title j = default JNull (m !! lit "title") ∧
    company_name j = default (JStr company) (m !! lit "company_name").
Proof.
  unfold normalize. intros H.
  destruct item as [| | | | |m]; try done.
  exists m. simpl in H.
  apply exc_bind_inr in H as (v & Hv & H).
  apply exc_bind_inr in H as (a & Ha & H).
  by injection H as <-.
Qed.

(** C3 (as amended): on every raw item that normalises, a non-empty
    apply-options list decides the apply link alone: it is the link field
    of the list's first entry, null when that entry has none.  Only when
    the apply options are absent or empty is the link of the first
    related-links entry used, if it is present and non-empty, and
    otherwise the share link, else null. *)
Theorem apply_link_priority company item j :
  normalize company item = inr j →
  ∃ m, item = JObj m ∧
    let ao := default JNull (m !! lit "apply_options") in
    if truthy ao then
      ∃ e rest, ao = JArr (JObj e :: rest) ∧
                apply_link j = default JNull (e !! lit "link")
    else
      let l := default JNull
                 (entry_link (default JNull (m !! lit "related_links"))) in
      apply_link j = if truthy l then l
                     else default JNull (m !! lit "share_link").
Proof.
  intros H. apply normalize_inr in H as (m & -> & Ha & _).
  exists m. split; [done|]. by apply pick_apply_link_inr.
Qed.

Lemma apply_link_priority_witness :
  ∃ j, normalize (lit "Acme") item_related_only = inr j ∧
       apply_link j = text "http://r/1".
Proof.
  eexists. split; [reflexivity|].
  destruct (apply_link_priority (lit "Acme") item_related_only _ eq_refl)
    as (m & Hm & Hl).
  injection Hm as <-. exact Hl.
Defined.

(** C3, as stated, fails: with a first apply option that has no link, the
    record's apply link is null although a related link and a share link
    are there to fall back on. *)
Lemma apply_link_chain_fails :
  ∃ j, normalize (lit "Acme") item_linkless = inr j ∧
       apply_link j = JNull ∧
       apply_link_chain fields_linkless = text "http://r/1".
Proof. eexists. split; [reflexivity|]. split; reflexivity. Qed.

(** When [pick_apply_link] and [normalize] succeed. *)
Lemma pick_apply_link_total m :
  (∃ a, pick_apply_link (JObj m) = inr a) ↔
  let ao := default JNull (m !! lit "apply_options") in
  let rl := default JNull (m !! lit "related_links") in
  if truthy ao then first_is_dict ao else truthy rl = false ∨ first_is_dict rl.
Proof.
  unfold pick_apply_link. simpl.
  set (ao := default JNull (m !! lit "apply_options")).
  set (rl := default JNull (m !! lit "related_links")).
  unfold py_or. destruct (truthy ao) eqn:Hao; simpl.
  - rewrite Hao. split.
    + intros [a (e & rest & -> & _)%py_first_get_inr]. done.
    + destruct ao as [| | | |[|[| | | | |e] t]|]; try done. intros _.
      by eexists.
  - destruct (truthy rl) eqn:Hrl; simpl.
    + split.
      * intros [a (x & Hx & (l & (e & -> & ->)%py_get_inr & _)%exc_bind_inr)%exc_bind_inr].
        right. by destruct rl as [| | |[|c s]|[|y t]|]; simplify_eq/=.
      * intros [?|H]; [done|].
        destruct rl as [| | | |[|[| | | | |e] t]|]; try done. simpl.
        cbv [mbind exc_bind mret exc_ret].
        destruct (truthy (default JNull (e !! lit "link"))); by eexists.
    + split; [by left|]. intros _. simpl. rewrite lookup_empty. simpl.
      by eexists.
Qed.

Lemma normalize_total company item :
  (∃ j, normalize company item = inr j) ↔ normalizable item.
Proof.
  unfold normalize, normalizable.
  destruct item as [| | | | |m]; try (split; [by intros [j ?]|done]).
  simpl. rewrite <-pick_apply_link_total.
  destruct (m !! lit "detected_extensions") as [[| | | | |ext]|]; simpl.
  1-5: split; [by intros [j ?]|by intros [[] _]].
  - split.
    + intros [j (a & Ha & _)%exc_bind_inr]. split; [done|by exists a].
    + intros [_ [a Ha]]. rewrite Ha. by eexists.
  - split.
    + intros [j (a & Ha & _)%exc_bind_inr]. split; [done|by exists a].
    + intros [_ [a Ha]]. rewrite Ha. by eexists.
Qed.

(** C4: every raw item that can be normalised gives a record, and the
    record's company name is the raw item's company field when the item
    has one, and the company name of the query otherwise. *)
Theorem normalize_company_name company item :
  (normalizable item → ∃ j, normalize company item = inr j) ∧
  (∀ j, normalize company item = inr j →
     ∃ m, item = JObj m ∧
       (∀ v, m !! lit "company_name" = Some v → company_name j = v) ∧
       (m !! lit "company_name" = None → company_name j = JStr company)).
Proof.
  split; [apply normalize_total|].
  intros j H. apply normalize_inr in H as (m & -> & _ & _ & Hc).
  exists m. split; [done|]. rewrite Hc. by split; [intros v ->|intros ->].
Qed.

Lemma normalize_company_name_witness :
  (∃ j, normalize (lit "Initech") item_both = inr j ∧
        company_name j = text "Acme Corp") ∧
  (∃ j, normalize (lit "Initech") item_related_only = inr j ∧
        company_name j = text "Initech").
Proof.
  split.
  - destruct (normalize_company_name (lit "Initech") item_both) as [Hok Hval].
    destruct Hok as [j Hj]; [vm_compute; tauto|].
    exists j. split; [done|].
    destruct (Hval j Hj) as (m & Hm & Hsome & _).
    injection Hm as <-. by apply Hsome.
  - destruct (normalize_company_name (lit "Initech") item_related_only)
      as [Hok Hval].
    destruct Hok as [j Hj]; [vm_compute; tauto|].
    exists j. split; [done|].
    destruct (Hval j Hj) as (m & Hm & _ & Hnone).
    injection Hm as <-. by apply Hnone.
Defined.

(** C10: when the apply-options list is non-empty and its first entry has
    no link field, the record's apply link is null, whatever the related
    links and the share link of the item are. *)
Theorem linkless_apply_option_gives_null company m e rest j :
  m !! lit "apply_options" = Some (JArr (JObj e :: rest)) →
  e !! lit "link" = None →
  normalize company (JObj m) = inr j →
  apply_link j = JNull.
Proof.
  intros Hao He H. apply normalize_inr in H as (m' & [= <-] & Ha & _).
  apply pick_apply_link_inr in Ha. rewrite Hao in Ha. simpl in Ha.
  destruct Ha as (e' & rest' & [= <- <-] & ->). by rewrite He.
Qed.

Lemma linkless_apply_option_gives_null_witness :
  ∃ j, normalize (lit "Acme") item_linkless = inr j ∧ apply_link j = JNull.
Proof.
  eexists. split; [reflexivity|].
  eapply (linkless_apply_option_gives_null (lit "Acme") fields_linkless);
    reflexivity.
Defined.

(** ** Deduplication *)

Lemma keyed_key_of j : keyed j → job_key j = inr (key_of j).
Proof.
  intros [k Hk]. rewrite Hk. f_equal. revert Hk.
  unfold job_key, key_of, atom_of.
  destruct (hashable (title j)) as [e|t]; [done|].
  destruct (hashable (company_name j)) as [e|c]; [done|].
  by intros [= <-].
Qed.

Lemma nullable_str_atom v v' :
  nullable_str v → nullable_str v' → atom_of v = atom_of v' → v = v'.
Proof. destruct v, v'; simpl; try done. by intros _ _ [= ->]. Qed.

Lemma well_keyed_identity j j' :
  well_keyed j → well_keyed j' →
  key_of j = key_of j' ↔ identity j = identity j'.
Proof.
  intros [Ht Hc] [Ht' Hc']. unfold key_of, identity. split.
  - intros [= H1 H2]. f_equal; by apply nullable_str_atom.
  - by intros [= -> ->].
Qed.

Lemma first_shift j rest i o :
  key_of o ≠ key_of j →
  (∀ i' j', i' < i → rest !! i' = Some j' → key_of j' ≠ key_of o) →
  ∀ i' j', i' < S i → (j :: rest) !! i' = Some j' → key_of j' ≠ key_of o.
Proof.
  intros Hne Hfirst [|i'] j' Hlt; simpl.
  - by intros [= <-] Heq.
  - apply Hfirst. lia.
Qed.

(** The loop, started with any [seen] and [deduped]: it appends the
    records at the positions whose key is neither in [seen] nor at an
    earlier position, in order. *)
Lemma dedup_loop_spec jobs :
  Forall keyed jobs →
  ∀ seen acc, ∃ out idxs,
    dedup_loop seen acc jobs = inr (acc ++ out) ∧
    Forall2 (λ o i, (jobs !! i) = Some o) out idxs ∧
    StronglySorted lt idxs ∧
    (∀ i, i ∈ idxs ↔
       ∃ j, jobs !! i = Some j ∧ (key_of j ∉ seen) ∧
            ∀ i' j', i' < i → jobs !! i' = Some j' → key_of j' ≠ key_of j) ∧
    Forall (λ o, key_of o ∉ seen) out ∧
    NoDup (key_of <$> out) ∧
    (∀ j, j ∈ jobs → key_of j ∈ seen ∨ key_of j ∈ key_of <$> out).
Proof.
  induction 1 as [|j rest Hj _ IH]; intros seen acc.
  - exists [], []. rewrite app_nil_r. repeat split; try by constructor.
    + by intros ?%elem_of_nil.
    + by intros (j' & ? & _).
    + by intros j' ?%elem_of_nil.
  - simpl. rewrite (keyed_key_of _ Hj). simpl. case_bool_decide as Hin.
    + destruct (IH seen acc)
        as (out & idxs & -> & Hpos & Hsort & Hidx & Hout & Hnd & Hcov).
      exists out, (S <$> idxs). split; [done|]. split.
      { apply Forall2_fmap_r. by eapply Forall2_impl. }
      split.
      { eapply StronglySorted_fmap; [|done]. intros; simpl; lia. }
      split; [|split; [done|split; [done|]]].
      * intros i. rewrite list_elem_of_fmap. split.
        -- intros (i0 & -> & Hi0). apply Hidx in Hi0 as (o & Ho & Hs & Hfirst).
           exists o. split; [done|]. split; [done|].
           apply first_shift; [|done].
           intros Heq. by rewrite Heq in Hs.
        -- intros (o & Ho & Hs & Hfirst). destruct i as [|i0].
           { by simplify_eq/=. }
           exists i0. split; [done|]. apply Hidx.
           exists o. split; [done|]. split; [done|].
           intros i' j' Hlt Hj'. apply (Hfirst (S i') j'); [lia|done].
      * intros j' [->|Hj']%elem_of_cons; [by left|by apply Hcov].
    + destruct (IH ({[key_of j]} ∪ seen) (acc ++ [j]))
        as (out & idxs & -> & Hpos & Hsort & Hidx & Hout & Hnd & Hcov).
      exists (j :: out), (0 :: (S <$> idxs)). split.
      { by rewrite <-app_assoc. }
      split.
      { constructor; [done|]. apply Forall2_fmap_r. by eapply Forall2_impl. }
      split.
      { constructor.
        - eapply StronglySorted_fmap; [|done]. intros; simpl; lia.
        - apply Forall_fmap, Forall_true. intros; simpl; lia. }
      assert (Forall (λ o, (key_of o ∉ seen) ∧ key_of o ≠ key_of j) out)
        as Hout'.
      { eapply Forall_impl; [done|]. simpl. intros o Ho.
        apply not_elem_of_union in Ho as [Ho1 Ho2].
        split; [done|]. by apply not_elem_of_singleton in Ho1. }
      split; [|split; [|split]].
      * intros i. rewrite elem_of_cons, list_elem_of_fmap. split.
        -- intros [->|(i0 & -> & Hi0)].
           { exists j. split; [done|]. split; [done|]. intros; lia. }
           apply Hidx in Hi0 as (o & Ho & Hs & Hfirst).
           apply not_elem_of_union in Hs as [Hs1 Hs2].
           apply not_elem_of_singleton in Hs1.
           exists o. split; [done|]. split; [done|].
           by apply first_shift.
        -- intros (o & Ho & Hs & Hfirst). destruct i as [|i0]; [by left|right].
           exists i0. split; [done|]. apply Hidx.
           exists o. simpl in Ho. split; [done|]. split.
           { apply not_elem_of_union. split; [|done].
             apply not_elem_of_singleton. intros Heq.
             by apply (Hfirst 0 j ltac:(lia) eq_refl). }
           intros i' j' Hlt Hj'. apply (Hfirst (S i') j'); [lia|done].
      * constructor; [done|].
        eapply Forall_impl; [exact Hout'|]. by intros o [? ?].
      * simpl. constructor; [|done].
        intros (o & Heq & Ho)%list_elem_of_fmap.
        rewrite Forall_forall in Hout'. by destruct (Hout' o Ho).
      * intros j' [->|Hj']%elem_of_cons.
        { right. simpl. apply elem_of_cons. by left. }
        destruct (Hcov j' Hj') as [[Hs|Hs]%elem_of_union|Hs].
        -- apply elem_of_singleton in Hs. right. simpl. rewrite Hs.
           apply elem_of_cons. by left.
        -- by left.
        -- right. simpl. apply elem_of_cons. by right.
Qed.

(** The loop raises exactly when the key of some record cannot be
    hashed. *)
Lemma dedup_loop_raises jobs :
  ∀ seen acc,
    (∃ e, dedup_loop seen acc jobs = inl e) ↔ Exists (λ j, ¬ keyed j) jobs.
Proof.
  induction jobs as [|j rest IH]; intros seen acc; simpl.
  - split; [by intros [e ?]|by inversion 1].
  - rewrite Exists_cons. destruct (job_key j) as [e|k] eqn:Hk; simpl.
    + split; [|by eexists]. intros _. left. intros [k Hk']. congruence.
    + assert (keyed j) as Hj by by exists k.
      case_bool_decide; rewrite IH; tauto.
Qed.

(** C1 (as amended): when every title and company name can be hashed,
    deduplication keeps exactly the records at the positions where a key
    (title, company name) occurs for the first time, in input order: one
    record per distinct key, each the first with it.  Keys are compared
    as Python compares them, [True] and [False] counting as [1] and [0];
    for titles and company names that are strings or null, equal keys
    are equal pairs.  When some title or company name is a list or a dict,
    the step raises and gives no list. *)
Theorem dedup_first_by_key jobs :
  (Forall keyed jobs →
   ∃ out idxs,
     dedup jobs = inr out ∧
     Forall2 (λ o i, (jobs !! i) = Some o) out idxs ∧
     StronglySorted lt idxs ∧
     (∀ i, i ∈ idxs ↔ first_key_occurrence jobs i) ∧
     NoDup (key_of <$> out) ∧
     (∀ k, k ∈ key_of <$> jobs ↔ k ∈ key_of <$> out)) ∧
  (∀ j j', well_keyed j → well_keyed j' →
     (key_of j = key_of j' ↔ identity j = identity j')) ∧
  (Exists (λ j, ¬ keyed j) jobs → ∃ e, dedup jobs = inl e).
Proof.
  split; [|split; [apply well_keyed_identity|apply dedup_loop_raises]].
  intros Hk.
  destruct (dedup_loop_spec jobs Hk ∅ [])
    as (out & idxs & Hrun & Hpos & Hsort & Hidx & _ & Hnd & Hcov).
  exists out, idxs. split; [done|]. split; [done|]. split; [done|].
  split; [|split; [done|]].
  - intros i. rewrite Hidx. unfold first_key_occurrence. split.
    + intros (j & Hj & _ & Hfirst). by exists j.
    + intros (j & Hj & Hfirst). exists j. split; [done|].
      split; [apply not_elem_of_empty|done].
  - intros k. split.
    + intros (j & -> & Hj)%list_elem_of_fmap.
      by destruct (Hcov j Hj) as [[]%not_elem_of_empty|Hin].
    + intros (o & -> & Ho)%list_elem_of_fmap.
      apply list_elem_of_fmap_2.
      apply list_elem_of_lookup in Ho as [n Hn].
      destruct (Forall2_lookup_l _ _ _ _ _ Hpos Hn) as (i & _ & Hi).
      by eapply list_elem_of_lookup_2.
Qed.

Lemma dedup_first_by_key_witness :
  ∃ out, dedup sample_jobs = inr out ∧ NoDup (key_of <$> out) ∧
         length out = 2.
Proof.
  destruct (dedup_first_by_key sample_jobs) as (H & _ & _).
  destruct H as (out & idxs & Hrun & _ & _ & _ & Hnd & _).
  { repeat constructor; by eexists. }
  exists out. split; [done|]. split; [done|].
  assert (dedup sample_jobs = inr (take 1 sample_jobs ++ drop 2 sample_jobs))
    as Hrun' by reflexivity.
  rewrite Hrun in Hrun'. by injection Hrun' as ->.
Defined.

(** C1, as stated, fails: the titles [0] and [False] make two distinct
    pairs and leave one record, and a title that is a list makes the
    step raise. *)
Lemma dedup_not_per_distinct_pair :
  (∃ out, dedup zero_false_jobs = inr out ∧ length out = 1 ∧
          NoDup (identity <$> zero_false_jobs)) ∧
  (∃ e, dedup list_title_jobs = inl e).
Proof.
  split.
  - eexists. split; [reflexivity|]. split; [done|].
    repeat constructor; [|apply not_elem_of_nil].
    by intros [=]%list_elem_of_singleton.
  - by eexists.
Qed.

(** C2 (as amended): for a cap that is not negative, the list left by
    deduplication and truncation has at most [MAX_RESULTS] records, and
    there is such a list whenever every record's key is hashable. *)
Theorem truncation_bound cap jobs :
  (0 ≤ cap)%Z →
  (∀ out, dedup_truncate cap jobs = inr out →
          (Z.of_nat (length out) ≤ cap)%Z) ∧
  (Forall keyed jobs → ∃ out, dedup_truncate cap jobs = inr out).
Proof.
  intros Hcap. unfold dedup_truncate. split.
  - intros out (deduped & _ & [= <-])%exc_bind_inr.
    unfold slice_to. rewrite (proj2 (Z.leb_le 0 cap) Hcap), length_take. lia.
  - intros Hk. destruct (dedup_loop_spec jobs Hk ∅ []) as (out & _ & H & _).
    unfold dedup. rewrite H. by eexists.
Qed.

Lemma truncation_bound_witness :
  ∃ out, dedup_truncate 1 sample_jobs = inr out ∧
         (Z.of_nat (length out) ≤ 1)%Z.
Proof.
  eexists. split; [reflexivity|].
  apply (truncation_bound 1 sample_jobs); [lia|reflexivity].
Defined.

(** C2, as stated, fails for a negative cap: [deduped[:-1]] drops the last
    record only, and one record is more than -1. *)
Lemma negative_cap_exceeds :
  ∃ out, dedup_truncate (-1) sample_jobs = inr out ∧
         ¬ (Z.of_nat (length out) ≤ -1)%Z.
Proof. eexists. split; [reflexivity|]. simpl. lia. Qed.

(** ** The search loop *)

Section ScriptProperties.
Context {W : Type} `{!Runtime W}.
Implicit Types (s : @state W) (cfg : config).

Lemma normalize_items_run company items s :
  normalize_items company items s =
    (match (normalized_before company items).2 with
     | None => Ret ()
     | Some e => Raise e
     end,
     State (world s) (trace s)
           (st_jobs s ++ (normalized_before company items).1)).
Proof.
  revert s. induction items as [|item rest IH]; intros s; simpl.
  - rewrite app_nil_r. by destruct s.
  - unfold mbind, M_bind. destruct (normalize company item) as [e|j]; simpl.
    + rewrite app_nil_r. by destruct s.
    + rewrite IH. simpl.
      destruct (normalized_before company rest) as [js r]. simpl.
      by rewrite <-app_assoc.
Qed.

(** The [try] body, whatever the search call answers: one search call,
    then the records appended before the first failure. *)
Lemma search_company_run cfg company s r w' :
  requests_get_json search_url
    (search_params (SERPAPI_KEY cfg) (build_query cfg company))
    (world s) = (r, w') →
  search_company cfg company s =
    (match (company_records company r).2 with
     | Some e => Raise e
     | None => Ret ()
     end,
     State w' (trace s ++ [search_event cfg company])
           (st_jobs s ++ (company_records company r).1)).
Proof.
  intros Hreq.
  unfold search_company, google_jobs_search, call, company_records,
    mbind, M_bind, emit, search_event. simpl.
  fold search_url.
  fold (search_params (SERPAPI_KEY cfg) (build_query cfg company)).
  rewrite Hreq. destruct r as [e|data]; simpl.
  { by rewrite app_nil_r. }
  destruct (py_get data "jobs_results" (JArr [])) as [e|results]; simpl.
  { by rewrite app_nil_r. }
  destruct (py_iter results) as [e|items]; simpl.
  { by rewrite app_nil_r. }
  rewrite normalize_items_run. simpl.
  by destruct (normalized_before company items) as [js [e|]].
Qed.

(** One iteration never raises: a failure of the [try] body becomes a
    warning, and the sleep follows in either case. *)
Lemma company_step_run cfg company s r w' :
  requests_get_json search_url
    (search_params (SERPAPI_KEY cfg) (build_query cfg company))
    (world s) = (r, w') →
  company_step cfg company s =
    (Ret (),
     State w'
       (trace s ++ [search_event cfg company]
        ++ match (company_records company r).2 with
           | Some e => [warning company e]
           | None => []
           end
        ++ [EvSleep])
       (st_jobs s ++ (company_records company r).1)).
Proof.
  intros Hreq. unfold company_step, try_except, mbind, M_bind.
  rewrite (search_company_run _ _ _ _ _ Hreq).
  destruct (company_records company r) as [js [e|]]; simpl;
    unfold warn, warning, emit; simpl; by rewrite <-?app_assoc.
Qed.

Lemma company_step_ret cfg company s :
  ∃ s', company_step cfg company s = (Ret (), s') ∧
        search_calls (trace s') =
          search_calls (trace s) ++ [search_event cfg company].
Proof.
  destruct (requests_get_json search_url
              (search_params (SERPAPI_KEY cfg) (build_query cfg company))
              (world s)) as [r w'] eqn:Hreq.
  eexists. split; [by apply company_step_run|]. simpl.
  unfold search_calls. rewrite !filter_app. f_equal.
  destruct (company_records company r) as [js [e|]]; simpl;
    by rewrite filter_cons_True, ?filter_cons_False.
Qed.

Lemma aggregate_cons cfg company rest s s1 :
  company_step cfg company s = (Ret (), s1) →
  aggregate cfg (company :: rest) s =
    if (MAX_RESULTS cfg <=? Z.of_nat (length (st_jobs s1)))%Z
    then (Ret (), s1) else aggregate cfg rest s1.
Proof.
  intros Hstep. simpl. unfold mbind, M_bind, get_jobs. rewrite Hstep.
  by destruct (_ <=? _)%Z.
Qed.

(** C5: over N companies the loop makes at most N search calls, one per
    company and in list order: its calls are those of a prefix of the
    list.  Once the list of records has reached [MAX_RESULTS] at the end
    of an iteration, the loop is over: the state then is the final one. *)
Theorem aggregate_search_calls cfg companies s :
  (∃ k s', k ≤ length companies ∧
     aggregate cfg companies s = (Ret (), s') ∧
     search_calls (trace s') =
       search_calls (trace s) ++ (search_event cfg <$> take k companies)) ∧
  (∀ i s_i, 0 < i →
     aggregate cfg (take i companies) s = (Ret (), s_i) →
     (MAX_RESULTS cfg ≤ Z.of_nat (length (st_jobs s_i)))%Z →
     aggregate cfg companies s = (Ret (), s_i)).
Proof.
  split.
  - revert s. induction companies as [|c rest IH]; intros s.
    + exists 0, s. by rewrite app_nil_r.
    + destruct (company_step_ret cfg c s) as (s1 & Hstep & Hcalls).
      rewrite (aggregate_cons _ _ _ _ _ Hstep).
      destruct (_ <=? _)%Z.
      * exists 1, s1. simpl. split; [lia|done].
      * destruct (IH s1) as (k & s' & Hk & Hrun & Hcalls').
        exists (S k), s'. simpl. split; [lia|]. split; [done|].
        by rewrite Hcalls', Hcalls, <-app_assoc.
  - revert s. induction companies as [|c rest IH]; intros s i s_i Hi.
    + by rewrite take_nil.
    + destruct i as [|i]; [lia|]. simpl take.
      destruct (company_step_ret cfg c s) as (s1 & Hstep & _).
      rewrite !(aggregate_cons _ _ _ _ _ Hstep).
      destruct (_ <=? _)%Z eqn:Hcap; [done|].
      destruct i as [|i].
      * rewrite take_0. intros [= <-] Hle. apply Z.leb_gt in Hcap. lia.
      * apply IH. lia.
Qed.



(** ** Sequencing *)

Lemma bind_ret {A B} (m : M A) (f : A → M B) s a s' :
  m s = (Ret a, s') → (m ≫= f) s = f a s'.
Proof. unfold mbind, M_bind. by intros ->. Qed.

Lemma bind_exit {A B} (m : M A) (f : A → M B) s c s' :
  m s = (Exit c, s') → (m ≫= f) s = (Exit c, s').
Proof. unfold mbind, M_bind. by intros ->. Qed.

Lemma bind_raise {A B} (m : M A) (f : A → M B) s e s' :
  m s = (Raise e, s') → (m ≫= f) s = (Raise e, s').
Proof. unfold mbind, M_bind. by intros ->. Qed.

Lemma env_required_blank environ name s :
  missing_or_blank environ name →
  (env environ name None true ≫= the_str) s =
    (Exit 1, State (world s) (trace s ++ [missing_line name]) (st_jobs s)).
Proof.
  unfold missing_or_blank. intros Hb. apply bind_exit. unfold env.
  destruct (environ !! lit name) as [v|]; simpl; [|done].
  by rewrite bool_decide_eq_true_2.
Qed.

Lemma env_required_set environ name s :
  ¬ missing_or_blank environ name →
  ∃ v, environ !! lit name = Some v ∧
       (env environ name None true ≫= the_str) s = (Ret v, s).
Proof.
  unfold missing_or_blank. intros Hb.
  destruct (environ !! lit name) as [v|] eqn:Hv; [|done].
  exists v. split; [done|]. rewrite (bind_ret _ _ s (Some v) s); [done|].
  unfold env. rewrite Hv. simpl. by rewrite bool_decide_eq_false_2.
Qed.

Lemma env_optional environ name d s :
  env environ name d false s =
    (Ret (match environ !! lit name with Some x => Some x | None => d end), s).
Proof. done. Qed.

(** ** Configuration *)

Lemma load_config_missing environ s :
  (∃ name, name ∈ required_vars ∧ missing_or_blank environ name) →
  ∃ name, name ∈ required_vars ∧ missing_or_blank environ name ∧
    load_config environ s =
      (Exit 1, State (world s) (trace s ++ [missing_line name]) (st_jobs s)).
Proof.
  intros (name & Hin & Hblank). unfold load_config.
  destruct (decide (missing_or_blank environ "SERPAPI_KEY")) as [H1|H1].
  { exists "SERPAPI_KEY"%string. split; [unfold required_vars; rewrite !elem_of_cons; auto|]. split; [done|].
    apply bind_exit. by apply env_required_blank. }
  destruct (env_required_set _ _ s H1) as (v1 & _ & E1).
  rewrite (bind_ret _ _ _ _ _ E1).
  rewrite (bind_ret _ _ _ _ _ (env_optional _ _ _ _)).
  destruct (decide (missing_or_blank environ "GMAIL_USER")) as [H2|H2].
  { exists "GMAIL_USER"%string. split; [unfold required_vars; rewrite !elem_of_cons; auto|]. split; [done|].
    apply bind_exit. by apply env_required_blank. }
  destruct (env_required_set _ _ s H2) as (v2 & _ & E2).
  rewrite (bind_ret _ _ _ _ _ E2).
  destruct (decide (missing_or_blank environ "GMAIL_APP_PASSWORD")) as [H3|H3].
  { exists "GMAIL_APP_PASSWORD"%string. split; [unfold required_vars; rewrite !elem_of_cons; auto|]. split; [done|].
    apply bind_exit. by apply env_required_blank. }
  destruct (env_required_set _ _ s H3) as (v3 & _ & E3).
  rewrite (bind_ret _ _ _ _ _ E3).
  destruct (decide (missing_or_blank environ "TO_EMAIL")) as [H4|H4].
  { exists "TO_EMAIL"%string. split; [unfold required_vars; rewrite !elem_of_cons; auto|]. split; [done|].
    apply bind_exit. by apply env_required_blank. }
  exfalso. unfold required_vars in Hin.
  repeat (apply elem_of_cons in Hin as [->|Hin]; [done|]).
  by apply elem_of_nil in Hin.
Qed.

(** C7: when a required variable is missing or blank, [main] exits with
    status 1 after one line on standard error that names such a variable;
    that line is all it adds to the trace, so no search, language-model or
    mail call is made, and the world is untouched. *)
Theorem missing_required_variable_exits environ s :
  (∃ name, name ∈ required_vars ∧ missing_or_blank environ name) →
  ∃ name, name ∈ required_vars ∧ missing_or_blank environ name ∧
    main environ s =
      (Exit 1,
       State (world s)
             (trace s ++ [EvStderr (lit "Missing required env var: "
                                    ++ lit name)])
             (st_jobs s)).
Proof.
  intros H. destruct (load_config_missing environ s H) as (name & ? & ? & E).
  exists name. split; [done|]. split; [done|].
  unfold main. by apply bind_exit.
Qed.

Lemma lift_no_exit {A} (x : exc A) s c s' : lift x s ≠ (Exit c, s').
Proof. by destruct x. Qed.

Lemma call_no_exit {A} (f : W → exc A * W) s c s' : call f s ≠ (Exit c, s').
Proof. unfold call. destruct (f (world s)) as [[e|a] w]; done. Qed.

Lemma gen_outreach_no_exit k j s c s' : gen_outreach k j s ≠ (Exit c, s').
Proof.
  unfold gen_outreach, mbind, M_bind, call, emit.
  destruct (import_openai (world s)); [done|].
  destruct (openai_client k (world s)) as [[e|[]] w1]; simpl; [done|].
  destruct (py_prefix 240 (description j)) as [e|snippet]; simpl; [done|].
  destruct (chat_completion _ _ _) as [[e|content] w2]; simpl; [done|].
  by destruct (py_strip content).
Qed.






Lemma run_days d cfg s : run (with_days d cfg) s = run cfg s.
Proof. reflexivity. Qed.

Lemma env_agree (e1 e2 : gmap str str) name d r :
  e1 !! lit name = e2 !! lit name → @env W e1 name d r = env e2 name d r.
Proof. unfold env. by intros ->. Qed.

Lemma env_days environ n :
  py_int (days_value environ) = Some n →
  @env W environ "DAYS" (Some (lit "2")) false ≫= int = mret n.
Proof.
  unfold days_value, env, int, the_str, mbind, M_bind, mret, M_ret. simpl.
  destruct (environ !! lit "DAYS") as [v|]; simpl; by intros ->.
Qed.

Lemma load_config_days e1 e2 s n1 n2 :
  (∀ name, name ≠ lit "DAYS" → e1 !! name = e2 !! name) →
  py_int (days_value e1) = Some n1 →
  py_int (days_value e2) = Some n2 →
  match load_config e1 s with
  | (Ret c1, s1) =>
      ∃ c2, load_config e2 s = (Ret c2, s1) ∧ c1 = with_days n1 c2
  | (Raise e, s1) => load_config e2 s = (Raise e, s1)
  | (Exit c, s1) => load_config e2 s = (Exit c, s1)
  end.
Proof.
  intros Hagree H1 H2. unfold load_config.
  rewrite (env_days _ _ H1), (env_days _ _ H2).
  rewrite !(env_agree e1 e2) by (apply Hagree; by vm_compute).
  unfold mbind, M_bind.
  repeat match goal with
  | |- context [env ?e ?n ?d ?r ?st] =>
      destruct (env e n d r st) as [[?|?|?] ?]; [|done..]
  | |- context [the_str ?v ?st] =>
      destruct (the_str v st) as [[?|?|?] ?]; [|done..]
  | |- context [int ?v ?st] =>
      destruct (int v st) as [[?|?|?] ?]; [|done..]
  end.
  simpl. by eexists.
Qed.

(** C9: two environments that agree on every variable but [DAYS], both
    with a day window that [int] accepts, give the same run from the same
    state: the same outcome, world, records and trace, hence the same
    search calls and the same digest. *)
Theorem days_is_unused e1 e2 s :
  (∀ name, name ≠ lit "DAYS" → e1 !! name = e2 !! name) →
  is_Some (py_int (days_value e1)) →
  is_Some (py_int (days_value e2)) →
  main e1 s = main e2 s.
Proof.
  intros Hagree [n1 H1] [n2 H2].
  pose proof (load_config_days e1 e2 s n1 n2 Hagree H1 H2) as Hcfg.
  unfold main, mbind, M_bind.
  destruct (load_config e1 s) as [[c1|e|c] s1].
  - destruct Hcfg as (c2 & -> & ->). apply run_days.
  - by rewrite Hcfg.
  - by rewrite Hcfg.
Qed.

End ScriptProperties.

(** ** The properties on the scripted runtime *)



Lemma missing_required_variable_exits_witness :
  ∃ name,
    @main _ scripted (delete (lit "GMAIL_USER") sample_env) (start []) =
      (Exit 1,
       State [] [EvStderr (lit "Missing required env var: " ++ lit name)] []).
Proof.
  assert (∃ name, name ∈ required_vars ∧
            missing_or_blank (delete (lit "GMAIL_USER") sample_env) name) as H.
  { exists "GMAIL_USER"%string. split; [|by vm_compute].
    unfold required_vars. rewrite !elem_of_cons. auto. }
  destruct (@missing_required_variable_exits _ scripted _ (start []) H)
    as (name & _ & _ & Hmain).
  by exists name.
Defined.


Lemma days_is_unused_witness :
  @main _ scripted (<[lit "DAYS" := lit "7"]> sample_env) (start []) =
  @main _ scripted sample_env (start []).
Proof.
  apply (@days_is_unused _ scripted).
  - intros name Hne. by apply lookup_insert_ne.
  - vm_compute. by eexists.
  - vm_compute. by eexists.
Defined.

Lemma aggregate_search_calls_witness :
  ∃ s', @aggregate _ scripted sample_cfg [lit "Acme"; lit "Initech"]
          (start []) = (Ret (), s') ∧
        length (search_calls (trace s')) ≤ 2.
Proof.
  destruct (@aggregate_search_calls _ scripted sample_cfg
              [lit "Acme"; lit "Initech"] (start []))
    as ((k & s' & Hk & Hrun & Hcalls) & _).
  exists s'. split; [done|].
  rewrite Hcalls, length_app, length_fmap, length_take. simpl. lia.
Defined.

(* ================================================================= *)
(** * Further properties of the script *)

(** ** Strings *)

Lemma lstrip_spec s :
  ∃ pre, s = pre ++ lstrip s ∧ blank pre ∧
         ∀ c, head (lstrip s) = Some c → isspace c = false.
Proof.
  induction s as [|c r (pre & Hr & Hpre & Hhd)]; simpl.
  - exists []. by repeat split; [constructor|].
  - destruct (isspace c) eqn:Hc.
    + exists (c :: pre). split; [by rewrite Hr at 1|]. split; [by constructor|done].
    + exists []. split; [done|]. split; [constructor|]. by intros ? [= <-].
Qed.

Lemma lstrip_clean s :
  (∀ c, head s = Some c → isspace c = false) → lstrip s = s.
Proof. destruct s as [|c r]; [done|]. intros H. simpl. by rewrite (H c). Qed.

Lemma lstrip_blank s : lstrip s = [] ↔ blank s.
Proof.
  unfold blank. induction s as [|c r IH]; simpl; [by split; [constructor|]|].
  destruct (isspace c) eqn:Hc.
  - rewrite IH. split; [by constructor|by inversion 1].
  - split; [done|]. inversion 1; congruence.
Qed.

Lemma strip_spec s :
  ∃ pre post, s = pre ++ strip s ++ post ∧ blank pre ∧ blank post ∧
              trimmed (strip s).
Proof.
  unfold strip.
  destruct (lstrip_spec s) as (pre & Hs & Hpre & Hhd).
  destruct (lstrip_spec (reverse (lstrip s))) as (post & Hr & Hpost & Hhd').
  set (t := lstrip s) in *. set (u := lstrip (reverse t)) in *.
  assert (t = reverse u ++ reverse post) as Ht.
  { by rewrite <-reverse_app, <-Hr, reverse_involutive. }
  exists pre, (reverse post). split; [by rewrite <-Ht|].
  split; [done|]. split; [by apply Forall_reverse|]. split.
  - intros c Hc. apply Hhd. rewrite Ht. apply head_app_Some. by left.
  - intros c Hc. apply Hhd'. by rewrite last_reverse in Hc.
Qed.

Lemma strip_trimmed s : trimmed s → strip s = s.
Proof.
  intros [Hh Hl]. unfold strip. rewrite (lstrip_clean s Hh).
  rewrite lstrip_clean; [apply reverse_involutive|].
  intros c. rewrite head_reverse. apply Hl.
Qed.

Lemma strip_blank s : strip s = [] ↔ blank s.
Proof.
  split.
  - intros H. destruct (strip_spec s) as (pre & post & Hs & Hpre & Hpost & _).
    rewrite H in Hs. rewrite Hs. by apply Forall_app.
  - intros H. unfold strip. apply lstrip_blank in H. by rewrite H.
Qed.

Lemma strip_subset s c : c ∈ strip s → c ∈ s.
Proof.
  destruct (strip_spec s) as (pre & post & Hs & _). intros Hc.
  rewrite Hs, !elem_of_app. auto.
Qed.

Lemma split_no_sep sep s : Forall (λ seg, sep ∉ seg) (split sep s).
Proof.
  induction s as [|c r IH]; simpl.
  - constructor; [apply not_elem_of_nil|constructor].
  - destruct (N.eqb_spec c sep) as [->|Hne].
    + constructor; [apply not_elem_of_nil|done].
    + destruct (split sep r) as [|h t]; inversion IH; subst.
      * constructor; [|constructor]. apply not_elem_of_cons. split; [done|apply not_elem_of_nil].
      * constructor; [|done]. apply not_elem_of_cons. split; [done|done].
Qed.

(** X1: The company list read from the configuration holds only usable
    names: none is empty, none contains a comma, none starts or ends with
    white space.  Empty and blank entries of the variable are dropped. *)
Theorem parse_companies_names s :
  Forall company_name_ok (parse_companies s).
Proof.
  unfold parse_companies. apply Forall_fmap, Forall_forall.
  intros c [Hne Hc]%list_elem_of_filter. simpl. split; [done|]. split.
  - intros Hin%strip_subset. pose proof (split_no_sep 44 s) as H.
    rewrite Forall_forall in H. by apply (H c).
  - by destruct (strip_spec c) as (_ & _ & _ & _ & _ & ?).
Qed.

Lemma split_app_sep sep c r :
  sep ∉ c → split sep (c ++ sep :: r) = c :: split sep r.
Proof.
  induction c as [|x c IH]; simpl; intros Hc.
  - by rewrite N.eqb_refl.
  - apply not_elem_of_cons in Hc as [Hx Hc].
    destruct (N.eqb_spec x sep) as [->|_]; [done|]. by rewrite IH.
Qed.

Lemma split_no_sep_id sep c : sep ∉ c → split sep c = [c].
Proof.
  induction c as [|x c IH]; simpl; intros Hc; [done|].
  apply not_elem_of_cons in Hc as [Hx Hc].
  destruct (N.eqb_spec x sep) as [->|_]; [done|]. by rewrite IH.
Qed.

Lemma lstrip_app_blank pre s : blank pre → lstrip (pre ++ s) = lstrip s.
Proof. induction 1 as [|c pre Hc _ IH]; simpl; [done|]. by rewrite Hc. Qed.

Lemma strip_app_blank pre s : blank pre → strip (pre ++ s) = strip s.
Proof. intros H. unfold strip. by rewrite lstrip_app_blank. Qed.

Lemma parse_companies_join_aux names :
  Forall company_name_ok names → names ≠ [] →
  ∀ pre, blank pre → 44%N ∉ pre →
  parse_companies (pre ++ join (lit ", ") names) = names.
Proof.
  induction 1 as [|c rest (Hne & Hcomma & Htrim) Hrest IH]; [done|].
  intros _ pre Hpre Hpc. unfold parse_companies in *.
  assert (strip (pre ++ c) = c) as Hstrip.
  { by rewrite strip_app_blank, strip_trimmed. }
  assert (44%N ∉ pre ++ c) as Hpcc.
  { rewrite elem_of_app. by intros [?|?]. }
  destruct rest as [|c2 rest].
  - simpl join. rewrite split_no_sep_id by done.
    rewrite filter_cons_True by (by rewrite Hstrip). simpl. by rewrite Hstrip.
  - change (join (lit ", ") (c :: c2 :: rest))
      with (c ++ 44%N :: ([32%N] ++ join (lit ", ") (c2 :: rest))).
    rewrite app_assoc, split_app_sep by done.
    rewrite filter_cons_True by (by rewrite Hstrip).
    rewrite fmap_cons, Hstrip. f_equal.
    apply IH; [done|by repeat constructor|].
    by intros [?|?%elem_of_nil]%elem_of_cons.
Qed.

(** X2: Usable names written with a comma and a space between them, as in the
    default of the script, are read back as they were, in order. *)
Theorem parse_companies_join names :
  Forall company_name_ok names →
  parse_companies (join (lit ", ") names) = names.
Proof.
  intros H. destruct names as [|c rest]; [done|].
  apply (parse_companies_join_aux _ H ltac:(done) []);
    [constructor|apply not_elem_of_nil].
Qed.

Lemma parse_companies_join_witness :
  parse_companies (lit "Acme, Initech") = [lit "Acme"; lit "Initech"].
Proof.
  apply (parse_companies_join [lit "Acme"; lit "Initech"]).
  assert (∀ c, c ≠ [] → bool_decide (44%N ∉ c) = true →
            (∀ x, head c = Some x → isspace x = false) →
            (∀ x, last c = Some x → isspace x = false) →
            company_name_ok c) as Hok.
  { intros c ? ?%bool_decide_eq_true_1 ? ?. by repeat split. }
  repeat constructor; apply Hok; try done; by intros x [= <-].
Defined.

Lemma forallb_blank v : forallb isspace v = true ↔ blank v.
Proof.
  unfold blank. induction v as [|c r IH]; simpl.
  - by split; [constructor|].
  - rewrite andb_true_iff, IH. split; [by intros []; constructor|by inversion 1].
Qed.

(** ** Deduplication, beyond well-typed records *)

Lemma keyed_hashable j :
  keyed j ↔ ¬ (unhashable (title j) ∨ unhashable (company_name j)).
Proof.
  unfold keyed, job_key. split.
  - intros [k Hk] [H|H].
    + by destruct (title j).
    + destruct (hashable (title j)); [done|]. by destruct (company_name j).
  - intros H. destruct (title j); simpl in *; try tauto;
      destruct (company_name j); simpl in *; try tauto; by eexists.
Qed.

Lemma job_key_inl j e : job_key j = inl e → ∃ ty, e = Unhashable ty.
Proof.
  unfold job_key.
  destruct (title j); simpl; try (intros [= <-]; by eexists);
    destruct (company_name j); simpl; try done; intros [= <-]; by eexists.
Qed.

Lemma dedup_loop_inl jobs :
  ∀ seen acc e, dedup_loop seen acc jobs = inl e → ∃ ty, e = Unhashable ty.
Proof.
  induction jobs as [|j rest IH]; intros seen acc e; simpl; [done|].
  destruct (job_key j) as [e'|k] eqn:Hk; simpl.
  - intros [= <-]. by eapply job_key_inl.
  - case_bool_decide; apply IH.
Qed.

(** X3: Deduplication raises exactly when some record has a list or a dict as
    title or company name, and what it raises is the [TypeError] of an
    unhashable key. *)
Theorem dedup_raises_iff jobs :
  ((∃ e, dedup jobs = inl e) ↔
     Exists (λ j, unhashable (title j) ∨ unhashable (company_name j)) jobs) ∧
  (∀ e, dedup jobs = inl e → ∃ ty, e = Unhashable ty).
Proof.
  split; [|apply dedup_loop_inl].
  unfold dedup. rewrite dedup_loop_raises. apply Exists_proper; [|done].
  intros j. rewrite keyed_hashable.
  split; [|tauto]. intros H.
  destruct (title j), (company_name j); simpl in *; tauto.
Qed.

Lemma dedup_inr_keyed jobs out : dedup jobs = inr out → Forall keyed jobs.
Proof.
  intros H. apply Forall_forall. intros j Hj.
  destruct (job_key j) as [e|k] eqn:Hk; [|by exists k]. exfalso.
  assert (∃ e, dedup jobs = inl e) as [e' He'].
  { apply dedup_loop_raises, Exists_exists. exists j. split; [done|].
    intros [k Hk']. congruence. }
  congruence.
Qed.

Lemma dedup_loop_distinct l :
  Forall keyed l → NoDup (key_of <$> l) →
  ∀ seen acc, Forall (λ o, key_of o ∉ seen) l →
  dedup_loop seen acc l = inr (acc ++ l).
Proof.
  induction 1 as [|j rest Hj _ IH]; intros Hnd seen acc Hseen; simpl.
  - by rewrite app_nil_r.
  - rewrite (keyed_key_of _ Hj). simpl.
    rewrite fmap_cons in Hnd. apply NoDup_cons in Hnd as [Hj' Hnd].
    apply Forall_cons in Hseen as [Hs Hseen].
    rewrite bool_decide_eq_false_2 by done.
    rewrite IH, <-app_assoc; [done|done|].
    apply Forall_forall. intros o Ho. rewrite Forall_forall in Hseen.
    apply not_elem_of_union. split; [|by apply Hseen].
    apply not_elem_of_singleton. intros Heq. apply Hj'. rewrite <-Heq.
    by apply list_elem_of_fmap_2.
Qed.

(** X4: Deduplicating a deduplicated list changes nothing. *)
Theorem dedup_idempotent jobs out :
  dedup jobs = inr out → dedup out = inr out.
Proof.
  intros H. pose proof (dedup_inr_keyed _ _ H) as Hk.
  destruct (dedup_loop_spec jobs Hk ∅ [])
    as (out' & idxs & Hrun & Hpos & _ & _ & _ & Hnd & _).
  unfold dedup in H. rewrite Hrun in H. injection H as <-.
  apply (dedup_loop_distinct out'); [|done|].
  - apply Forall_forall. intros o Ho.
    apply list_elem_of_lookup in Ho as [n Hn].
    destruct (Forall2_lookup_l _ _ _ _ _ Hpos Hn) as (i & _ & Hi).
    rewrite Forall_forall in Hk. apply Hk. by eapply list_elem_of_lookup_2.
  - apply Forall_true. intros o. apply not_elem_of_empty.
Qed.

Lemma dedup_idempotent_witness :
  ∃ out, dedup sample_jobs = inr out ∧ dedup out = inr out.
Proof.
  eexists. split; [reflexivity|]. by apply (dedup_idempotent sample_jobs).
Defined.

Lemma dedup_loop_sublist jobs :
  ∀ seen acc r, dedup_loop seen acc jobs = inr r →
    ∃ out, r = acc ++ out ∧ out `sublist_of` jobs.
Proof.
  induction jobs as [|j rest IH]; intros seen acc r; simpl.
  - intros [= <-]. exists []. by rewrite app_nil_r.
  - destruct (job_key j) as [e|k]; simpl; [done|]. case_bool_decide.
    + intros (out & -> & Hsub)%IH. exists out. split; [done|].
      by apply sublist_cons.
    + intros (out & -> & Hsub)%IH. exists (j :: out).
      split; [by rewrite <-app_assoc|]. by apply sublist_skip.
Qed.

(** X5: What deduplication and truncation leave is a prefix of the
    deduplicated list, itself a subsequence of the input with pairwise
    distinct keys; nothing is cut when the cap is not exceeded, and a
    negative cap cuts that many records off the end. *)
Theorem dedup_truncate_shape cap jobs out :
  dedup_truncate cap jobs = inr out →
  ∃ deduped,
    dedup jobs = inr deduped ∧
    deduped `sublist_of` jobs ∧
    NoDup (key_of <$> deduped) ∧
    out `prefix_of` deduped ∧
    ((Z.of_nat (length deduped) ≤ cap)%Z → out = deduped) ∧
    ((cap < 0)%Z →
       length out = length deduped - Z.to_nat (- cap)).
Proof.
  unfold dedup_truncate. intros (deduped & Hd & [= <-])%exc_bind_inr.
  exists deduped. split; [done|].
  pose proof (dedup_inr_keyed _ _ Hd) as Hk.
  destruct (dedup_loop_spec jobs Hk ∅ [])
    as (out' & idxs & Hrun & _ & _ & _ & _ & Hnd & _).
  destruct (dedup_loop_sublist jobs ∅ [] _ Hd) as (out'' & -> & Hsub).
  unfold dedup in Hd. rewrite Hrun in Hd. injection Hd as Heq. simpl in *.
  subst out''. split; [done|]. split; [done|].
  unfold slice_to. destruct (Z.leb_spec 0 cap).
  - split; [apply prefix_take|]. split; [|lia].
    intros Hle. apply take_ge. lia.
  - split; [apply prefix_take|]. split; [lia|].
    intros _. rewrite length_take. lia.
Qed.

Lemma dedup_truncate_shape_witness :
  ∃ out deduped,
    dedup_truncate (-1) sample_jobs = inr out ∧
    dedup sample_jobs = inr deduped ∧
    length out = length deduped - 1.
Proof.
  destruct (dedup_truncate_shape (-1) sample_jobs _ eq_refl)
    as (deduped & Hd & _ & _ & _ & _ & Hlen).
  eexists _, deduped. split; [reflexivity|]. split; [done|].
  by apply Hlen.
Defined.

(** ** Normalisation: when it raises *)

(** X6: Normalising a raw item succeeds exactly when the item is a dict whose
    detected extensions, if present, are a dict, and whose consulted link
    source is a list starting with a dict (the related links may also be
    absent, null or empty), whatever the company; on every other item it
    raises, and the search loop drops the rest of the response. *)
Theorem normalize_succeeds_iff company item :
  (∃ j, normalize company item = inr j) ↔ normalizable item.
Proof. apply normalize_total. Qed.

(** ** Configuration *)

Section ConfigProperties.
Context {W : Type} `{!Runtime W}.
Implicit Types (s : @state W).

(** X7: A required variable makes [env] exit exactly when it is unset or made
    of white space only; a value with anything else in it is returned as
    it is, white space around it included, and nothing is printed. *)
Theorem env_required_outcome environ name s :
  env environ name None true s =
    match environ !! lit name with
    | Some v =>
        if forallb isspace v
        then (Exit 1, State (world s) (trace s ++ [missing_line name])
                            (st_jobs s))
        else (Ret (Some v), s)
    | None =>
        (Exit 1, State (world s) (trace s ++ [missing_line name]) (st_jobs s))
    end.
Proof.
  unfold env. destruct (environ !! lit name) as [v|]; simpl; [|done].
  destruct (forallb isspace v) eqn:Hv.
  - apply forallb_blank, strip_blank in Hv. by rewrite bool_decide_eq_true_2.
  - rewrite bool_decide_eq_false_2; [done|].
    intros H%strip_blank%forallb_blank. congruence.
Qed.

Lemma config_step_bind {A B} environ (m : @M W A) (f : A → @M W B) :
  config_step environ m → (∀ a, config_step environ (f a)) →
  config_step environ (m ≫= f).
Proof.
  intros Hm Hf s r s'. unfold mbind, M_bind.
  destruct (m s) as [[a|e|c] s1] eqn:Hms.
  - destruct (Hm _ _ _ Hms) as [[-> _]|(name & _ & _ & [=] & _)]. apply Hf.
  - intros [= <- <-].
    by destruct (Hm _ _ _ Hms) as [[-> _]|(name & _ & _ & [=] & _)]; left.
  - intros [= <- <-].
    destruct (Hm _ _ _ Hms) as [[_ Hne]|(name & ? & ? & [= ->] & ->)];
      [by destruct (Hne c)|right; by exists name].
Qed.

Lemma config_step_env environ name d (required : bool) :
  (required = true → name ∈ required_vars ∧ d = None) →
  config_step (W:=W) environ (env environ name d required).
Proof.
  intros Hreq s r s'. unfold env.
  destruct (_ && _) eqn:Hb.
  - apply andb_true_iff in Hb as [-> Hb]. intros [= <- <-].
    destruct (Hreq eq_refl) as [Hin ->].
    right. exists name. split; [done|]. split; [|done].
    unfold missing_or_blank. destruct (environ !! lit name); [|done].
    by apply bool_decide_eq_true_1 in Hb.
  - intros [= <- <-]. by left.
Qed.

Lemma config_step_the_str environ v : config_step (W:=W) environ (the_str v).
Proof.
  intros s r s'.
  destruct v; unfold the_str, mret, M_ret, raise; intros [= <- <-]; by left.
Qed.

Lemma config_step_int environ v : config_step (W:=W) environ (int v).
Proof.
  apply config_step_bind; [apply config_step_the_str|].
  intros x s r s'.
  destruct (py_int x); unfold mret, M_ret, raise; intros [= <- <-]; by left.
Qed.

Lemma config_step_ret {A} environ (a : A) :
  config_step (W:=W) environ (mret a).
Proof. intros s r s'. unfold mret, M_ret. intros [= <- <-]. by left. Qed.

Lemma config_step_load environ :
  config_step (W:=W) environ (load_config environ).
Proof.
  unfold load_config.
  repeat first
    [ apply config_step_ret
    | apply config_step_the_str
    | apply config_step_int
    | apply config_step_env;
        first [done
              |intros _; split; [|done];
               unfold required_vars; rewrite !elem_of_cons; auto]
    | apply config_step_bind; [|intros ?] ].
Qed.

(** X8: Reading the configuration leaves the world, the trace and the records
    as they are, whether it succeeds or raises on a bad number; its only
    possible effect is the line for a required variable that is missing
    or blank, followed by exit status 1.  So no network call is made
    before the configuration is complete. *)
Theorem load_config_quiet environ s r s' :
  load_config environ s = (r, s') →
  (s' = s ∧ ∀ c, r ≠ Exit c) ∨
  ∃ name, name ∈ required_vars ∧ missing_or_blank environ name ∧
          r = Exit 1 ∧
          s' = State (world s) (trace s ++ [missing_line name]) (st_jobs s).
Proof. apply config_step_load. Qed.

Lemma env_default_str environ name d s :
  (env environ name (Some d) false ≫= the_str) s =
    (Ret (default d (environ !! lit name)), s).
Proof.
  unfold env, mbind, M_bind. simpl. by destruct (environ !! lit name).
Qed.

Lemma env_default_int environ name d s :
  (env environ name (Some d) false ≫= int) s =
    match py_int (default d (environ !! lit name)) with
    | Some n => (Ret n, s)
    | None => (Raise (ValueError (default d (environ !! lit name))), s)
    end.
Proof.
  unfold env, int, the_str, mbind, M_bind. simpl.
  destruct (environ !! lit name) as [v|]; simpl; by destruct (py_int _).
Qed.

Ltac required_steps H :=
  repeat lazymatch goal with
  | |- ((env ?e ?n None true ≫= the_str) ≫= _) ?st = _ =>
      let v := fresh "v" in let E := fresh "E" in
      destruct (env_required_set e n st
                  ltac:(apply H; unfold required_vars;
                        rewrite !elem_of_cons; auto))
        as (v & _ & E);
      rewrite (bind_ret _ _ _ _ _ E); clear E
  | |- (env ?e ?n None false ≫= _) ?st = _ =>
      rewrite (bind_ret _ _ _ _ _ (env_optional e n None st))
  end.

(** X9: With the required variables set, a cap that [int] rejects makes
    [main] raise [ValueError] on it, and so does a day window that [int]
    rejects once the cap is accepted: in both cases before anything is
    printed or called.  The day window is otherwise unused, but it has to
    be a number. *)
Theorem bad_number_aborts environ s :
  (∀ name, name ∈ required_vars → ¬ missing_or_blank environ name) →
  let cap := default (lit "20") (environ !! lit "MAX_RESULTS") in
  (py_int cap = None → main environ s = (Raise (ValueError cap), s)) ∧
  (is_Some (py_int cap) → py_int (days_value environ) = None →
   main environ s = (Raise (ValueError (days_value environ)), s)).
Proof.
  intros Hreq cap. split.
  - intros Hcap. unfold main. apply bind_raise. unfold load_config.
    required_steps Hreq.
    apply bind_raise. rewrite env_default_int. fold cap. by rewrite Hcap.
  - intros [n Hcap] Hdays. unfold main. apply bind_raise. unfold load_config.
    required_steps Hreq.
    erewrite bind_ret; [|rewrite env_default_int; fold cap; by rewrite Hcap].
    rewrite !(bind_ret _ _ _ _ _ (env_default_str _ _ _ _)).
    apply bind_raise. rewrite env_default_int. fold (days_value environ).
    by rewrite Hdays.
Qed.

(** X10: The variable named on exit is the first of the four, in the order
    [main] reads them, that is missing or blank. *)
Theorem first_missing_reported environ s pre name post :
  required_vars = pre ++ name :: post →
  Forall (λ n, ¬ missing_or_blank environ n) pre →
  missing_or_blank environ name →
  main environ s =
    (Exit 1, State (world s) (trace s ++ [missing_line name]) (st_jobs s)).
Proof.
  intros Hsplit Hpre Hname.
  assert (∀ n, n ∈ pre → ¬ missing_or_blank environ n) as Hreq.
  { by apply Forall_forall. }
  unfold main. apply bind_exit. unfold load_config, required_vars in *.
  destruct pre as [|a [|b [|c [|d pre]]]]; simplify_eq/=.
  - apply bind_exit. by apply env_required_blank.
  - destruct (env_required_set environ "SERPAPI_KEY" s) as (v1 & _ & E1);
      [apply Hreq; rewrite !elem_of_cons; auto|].
    rewrite (bind_ret _ _ _ _ _ E1).
    rewrite (bind_ret _ _ _ _ _ (env_optional _ _ _ _)).
    apply bind_exit. by apply env_required_blank.
  - destruct (env_required_set environ "SERPAPI_KEY" s) as (v1 & _ & E1);
      [apply Hreq; rewrite !elem_of_cons; auto|].
    rewrite (bind_ret _ _ _ _ _ E1).
    rewrite (bind_ret _ _ _ _ _ (env_optional _ _ _ _)).
    destruct (env_required_set environ "GMAIL_USER" s) as (v2 & _ & E2);
      [apply Hreq; rewrite !elem_of_cons; auto|].
    rewrite (bind_ret _ _ _ _ _ E2).
    apply bind_exit. by apply env_required_blank.
  - destruct (env_required_set environ "SERPAPI_KEY" s) as (v1 & _ & E1);
      [apply Hreq; rewrite !elem_of_cons; auto|].
    rewrite (bind_ret _ _ _ _ _ E1).
    rewrite (bind_ret _ _ _ _ _ (env_optional _ _ _ _)).
    destruct (env_required_set environ "GMAIL_USER" s) as (v2 & _ & E2);
      [apply Hreq; rewrite !elem_of_cons; auto|].
    rewrite (bind_ret _ _ _ _ _ E2).
    destruct (env_required_set environ "GMAIL_APP_PASSWORD" s)
      as (v3 & _ & E3); [apply Hreq; rewrite !elem_of_cons; auto|].
    rewrite (bind_ret _ _ _ _ _ E3).
    apply bind_exit. by apply env_required_blank.
  - by destruct pre.
Qed.

End ConfigProperties.

(** ** The search loop, further *)

Section LoopProperties.
Context {W : Type} `{!Runtime W}.
Implicit Types (s : @state W) (cfg : config).

(** The effect of one iteration on the trace and on the records. *)
Lemma company_step_effects cfg company s :
  ∃ s' added recs,
    company_step cfg company s = (Ret (), s') ∧
    trace s' = trace s ++ added ∧
    Forall (λ ev, is_loop_event ev = true) added ∧
    length (filter (λ ev, is_sleep ev = true) added) = 1 ∧
    length (search_calls added) = 1 ∧
    st_jobs s' = st_jobs s ++ recs.
Proof.
  destruct (requests_get_json search_url
              (search_params (SERPAPI_KEY cfg) (build_query cfg company))
              (world s)) as [r w'] eqn:Hreq.
  eexists _, _, (company_records company r).1.
  split; [by apply company_step_run|]. simpl.
  split; [done|]. unfold search_calls.
  destruct (company_records company r) as [js [e|]]; simpl;
    (split; [repeat constructor|by split; [|split]]).
Qed.

Lemma aggregate_run cfg companies s :
  ∃ s' added recs,
    aggregate cfg companies s = (Ret (), s') ∧
    trace s' = trace s ++ added ∧
    Forall (λ ev, is_loop_event ev = true) added ∧
    length (filter (λ ev, is_sleep ev = true) added) =
      length (search_calls added) ∧
    st_jobs s' = st_jobs s ++ recs.
Proof.
  revert s. induction companies as [|c rest IH]; intros s.
  - exists s, [], []. by rewrite !app_nil_r.
  - destruct (company_step_effects cfg c s)
      as (s1 & a1 & r1 & Hstep & Htr & Hev & Hsl & Hse & Hjobs).
    rewrite (aggregate_cons _ _ _ _ _ Hstep). destruct (_ <=? _)%Z.
    + exists s1, a1, r1. repeat split; try done. by rewrite Hsl, Hse.
    + destruct (IH s1) as (s' & a2 & r2 & Hrun & Htr' & Hev' & Hsl' & Hjobs').
      exists s', (a1 ++ a2), (r1 ++ r2). split; [done|].
      split; [by rewrite Htr', Htr, app_assoc|].
      split; [by apply Forall_app|].
      split; [|by rewrite Hjobs', Hjobs, app_assoc].
      unfold search_calls in *. rewrite !filter_app, !length_app. lia.
Qed.

(** X11: The search loop always returns normally.  It only appends to the
    list of records, and to the trace it adds nothing but search calls,
    warnings and sleeps, with one sleep for every search call: the pause
    is also made after the last call. *)
Theorem aggregate_effects cfg companies s :
  ∃ s' added recs,
    aggregate cfg companies s = (Ret (), s') ∧
    trace s' = trace s ++ added ∧
    Forall (λ ev, is_loop_event ev = true) added ∧
    length (filter (λ ev, is_sleep ev = true) added) =
      length (search_calls added) ∧
    st_jobs s' = st_jobs s ++ recs.
Proof. apply aggregate_run. Qed.

(** X12: When the loop ends, the state before its last iteration was the
    initial one or had fewer records than the cap: whatever exceeds the
    cap comes from the last company searched. *)
Theorem aggregate_overshoot cfg companies s s' :
  aggregate cfg companies s = (Ret (), s') →
  companies ≠ [] →
  ∃ s0 c, c ∈ companies ∧
    company_step cfg c s0 = (Ret (), s') ∧
    (s0 = s ∨ (Z.of_nat (length (st_jobs s0)) < MAX_RESULTS cfg)%Z).
Proof.
  revert s. induction companies as [|c rest IH]; intros s; [done|].
  intros Hrun _.
  destruct (company_step_effects cfg c s) as (s1 & _ & _ & Hstep & _).
  rewrite (aggregate_cons _ _ _ _ _ Hstep) in Hrun.
  destruct (_ <=? _)%Z eqn:Hcap.
  - injection Hrun as <-. exists s, c. split; [by left|]. split; [done|by left].
  - apply Z.leb_gt in Hcap. destruct rest as [|c2 rest].
    + injection Hrun as <-. exists s, c. split; [by left|].
      split; [done|by left].
    + destruct (IH s1 Hrun ltac:(done)) as (s0 & c' & Hin & Hlast & Hs0).
      exists s0, c'. split; [by right|]. split; [done|].
      right. by destruct Hs0 as [->|?].
Qed.

(** X13: With a cap of zero or less the loop stops after its first iteration:
    one company is searched, whatever the list holds. *)
Theorem nonpositive_cap_one_search cfg company rest s :
  (MAX_RESULTS cfg ≤ 0)%Z →
  aggregate cfg (company :: rest) s = company_step cfg company s.
Proof.
  intros Hcap.
  destruct (company_step_effects cfg company s) as (s1 & _ & _ & Hstep & _).
  rewrite (aggregate_cons _ _ _ _ _ Hstep), Hstep.
  destruct (Z.leb_spec (MAX_RESULTS cfg) (Z.of_nat (length (st_jobs s1))));
    [done|lia].
Qed.

Lemma normalized_before_all company items :
  Forall normalizable items →
  ∃ recs, normalized_before company items = (recs, None) ∧
          Forall2 (λ item j, normalize company item = inr j) items recs.
Proof.
  induction 1 as [|item rest Hitem _ (recs & Hrest & Hall)]; simpl.
  - exists []. by split; [|constructor].
  - apply (normalize_total company) in Hitem as [j Hj]. rewrite Hj, Hrest.
    exists (j :: recs). by split; [|constructor].
Qed.

(** X14: When the search call answers and every item of its result list can
    be normalised, the company adds one record per item, in the order of
    the response, and no warning is printed.  A response without the
    result key counts as an empty list. *)
Theorem company_success cfg company s data w' items :
  requests_get_json search_url
    (search_params (SERPAPI_KEY cfg) (build_query cfg company))
    (world s) = (inr data, w') →
  (results ← py_get data "jobs_results" (JArr []); py_iter results)
    = inr items →
  Forall normalizable items →
  ∃ recs,
    Forall2 (λ item j, normalize company item = inr j) items recs ∧
    company_step cfg company s =
      (Ret (),
       State w' (trace s ++ [search_event cfg company; EvSleep])
             (st_jobs s ++ recs)).
Proof.
  intros Hreq Hitems Hall.
  destruct (normalized_before_all company items Hall) as (recs & Hrecs & H2).
  exists recs. split; [done|].
  rewrite (company_step_run _ _ _ _ _ Hreq).
  unfold company_records. cbv [mbind exc_bind] in Hitems |- *.
  by rewrite Hitems, Hrecs.
Qed.

(** X15: Two companies get the same query only if they are the same name. *)
Theorem build_query_injective cfg c1 c2 :
  build_query cfg c1 = build_query cfg c2 → c1 = c2.
Proof.
  unfold build_query. intros H.
  do 3 apply app_inv_head in H. by apply app_inv_tail in H.
Qed.

End LoopProperties.

(** ** Normalisation: the other fields *)

Lemma normalize_inr_fields company m j :
  normalize company (JObj m) = inr j →
  title j = default JNull (m !! lit "title") ∧
  location j = default JNull (m !! lit "location") ∧
  extensions j = default (JObj ∅) (m !! lit "detected_extensions") ∧
  py_get (extensions j) "via" JNull = inr (via j) ∧
  description j = default (JStr []) (m !! lit "description") ∧
  job_id j = default JNull (m !! lit "job_id") ∧
  outreach j = None.
Proof.
  unfold normalize. simpl. intros H.
  apply exc_bind_inr in H as (v & Hv & H).
  apply exc_bind_inr in H as (a & Ha & H).
  by injection H as <-.
Qed.

(** X16: A normalised record takes title, location and job id from the raw
    item, null when the key is absent; its description is the raw one,
    the empty string when absent; its extensions are the raw
    detected-extensions dict, empty when absent, and [via] is that dict's
    [via] entry or null; it has no outreach text yet. *)
Theorem normalize_other_fields company m j :
  normalize company (JObj m) = inr j →
  title j = default JNull (m !! lit "title") ∧
  location j = default JNull (m !! lit "location") ∧
  job_id j = default JNull (m !! lit "job_id") ∧
  description j = default (JStr []) (m !! lit "description") ∧
  (∃ ext, default (JObj ∅) (m !! lit "detected_extensions") = JObj ext ∧
          extensions j = JObj ext ∧
          via j = default JNull (ext !! lit "via")) ∧
  outreach j = None.
Proof.
  intros (Ht & Hl & He & Hv & Hd & Hi & Ho)%normalize_inr_fields.
  repeat split; try done.
  apply py_get_inr in Hv as (ext & Hext & Hv).
  exists ext. by rewrite <-He.
Qed.

Lemma normalize_other_fields_witness :
  ∃ j, normalize (lit "Acme") item_related_only = inr j ∧
       description j = JStr [] ∧ via j = JNull.
Proof.
  eexists. split; [reflexivity|].
  destruct (normalize_other_fields (lit "Acme") _ _
              (eq_refl : normalize (lit "Acme") item_related_only = inr _))
    as (_ & _ & _ & Hd & (ext & _ & _ & Hv) & _).
  split; [exact Hd|reflexivity].
Defined.

(** ** Outreach, further *)

Section OutreachProperties.
Context {W : Type} `{!Runtime W}.
Implicit Types (s : @state W) (cfg : config).

Lemma gen_outreach_effects k j s r s' :
  gen_outreach k j s = (r, s') →
  st_jobs s' = st_jobs s ∧
  (trace s' = trace s ∨
   ∃ snippet,
     py_prefix 240 (description j) = inr snippet ∧
     trace s' = trace s ++ [EvChat k (Prompt (title j) (company_name j)
                                             snippet)]).
Proof.
  unfold gen_outreach, mbind, M_bind, call, emit.
  destruct (import_openai (world s)); [intros [= <- <-]; by split; [|left]|].
  destruct (openai_client k (world s)) as [[e|[]] w1]; simpl;
    [intros [= <- <-]; by split; [|left]|].
  destruct (py_prefix 240 (description j)) as [e|snippet]; simpl;
    [intros [= <- <-]; by split; [|left]|].
  destruct (chat_completion _ _ _) as [[e|content] w2]; simpl.
  { intros [= <- <-]. split; [done|]. right. by exists snippet. }
  destruct (py_strip content); simpl; intros [= <- <-];
    (split; [done|]; right; by exists snippet).
Qed.

(** X17: Generating one message makes at most one language-model call, with
    the key it was given and a prompt built from the record's title, its
    company and the first 240 characters of its description; the records
    are not touched. *)
Theorem gen_outreach_call k j s r s' :
  gen_outreach k j s = (r, s') →
  st_jobs s' = st_jobs s ∧
  (trace s' = trace s ∨
   ∃ snippet,
     trace s' = trace s ++ [EvChat k (Prompt (title j) (company_name j)
                                             snippet)] ∧
     (∀ d, description j = JStr d → snippet = JStr (take 240 d)) ∧
     (∀ d, snippet = JStr d → length d ≤ 240)).
Proof.
  intros (Hjobs & Htr)%gen_outreach_effects. split; [done|].
  destruct Htr as [?|(snippet & Hsn & Htr)]; [by left|right].
  exists snippet. split; [done|].
  destruct (description j) as [| | |d|l|]; simplify_eq/=.
  - split; [by intros ? [= <-]|]. intros ? [= <-]. rewrite length_take. lia.
  - by split.
Qed.

Lemma outreach_for_effects cfg j s :
  ∃ o s' added,
    outreach_for cfg j s = (Ret o, s') ∧
    st_jobs s' = st_jobs s ∧
    trace s' = trace s ++ added ∧
    Forall (λ ev, is_chat ev = true) added ∧
    length added ≤ 1 ∧
    (key_set (OPENAI_API_KEY cfg) = None → added = []).
Proof.
  unfold outreach_for. destruct (key_set (OPENAI_API_KEY cfg)) as [k|].
  - assert (∃ o s', try_except (gen_outreach k j) (λ e, mret (error_outreach e)) s
                    = (Ret o, s') ∧
                    ∃ r, gen_outreach k j s = (r, s')) as (o & s1 & Hrun & r & Hgen).
    { unfold try_except.
      destruct (gen_outreach k j s) as [[o|e|c] s1] eqn:Hgen.
      - by eexists _, _; split; [|eexists].
      - by eexists _, _; split; [|eexists].
      - by apply gen_outreach_no_exit in Hgen. }
    destruct (gen_outreach_effects _ _ _ _ _ Hgen)
      as (Hjobs & [Htr|(sn & _ & Htr)]).
    + exists o, s1, []. rewrite app_nil_r.
      split; [done|]. split; [done|]. split; [done|].
      split; [constructor|]. split; [simpl; lia|done].
    + eexists o, s1, [_].
      split; [done|]. split; [done|]. split; [exact Htr|].
      split; [by repeat constructor|]. split; [simpl; lia|done].
  - exists no_key_outreach, s, []. rewrite app_nil_r.
    split; [done|]. split; [done|]. split; [done|].
    split; [constructor|]. split; [simpl; lia|done].
Qed.

Lemma add_outreach_run cfg jobs s :
  ∃ out s' added,
    add_outreach cfg jobs s = (Ret out, s') ∧
    length out = length jobs ∧
    st_jobs s' = st_jobs s ∧
    trace s' = trace s ++ added ∧
    Forall (λ ev, is_chat ev = true) added ∧
    length added ≤ length jobs ∧
    (key_set (OPENAI_API_KEY cfg) = None → added = []).
Proof.
  revert s. induction jobs as [|j rest IH]; intros s.
  - exists [], s, []. rewrite app_nil_r.
    split; [done|]. split; [done|]. split; [done|]. split; [done|].
    split; [constructor|]. split; [simpl; lia|done].
  - destruct (outreach_for_effects cfg j s)
      as (o & s1 & a1 & Ho & Hj1 & Ht1 & Hc1 & Hl1 & Hk1).
    destruct (IH s1) as (out & s' & a2 & Hrun & Hlen & Hj2 & Ht2 & Hc2 & Hl2 & Hk2).
    exists (set_outreach o j :: out), s', (a1 ++ a2). split.
    { simpl. rewrite (bind_ret _ _ _ _ _ Ho).
      by rewrite (bind_ret _ _ _ _ _ Hrun). }
    split; [simpl; lia|]. split; [congruence|].
    split; [by rewrite Ht2, Ht1, app_assoc|].
    split; [by apply Forall_app|].
    split; [rewrite length_app; simpl; lia|].
    intros Hkey. by rewrite Hk1, Hk2.
Qed.

(** X18: Enrichment keeps the number of records, leaves the list of line 78
    alone, and adds nothing to the trace but language-model calls, at
    most one per record and none at all without a key. *)
Theorem add_outreach_effects cfg jobs s :
  ∃ out s' added,
    add_outreach cfg jobs s = (Ret out, s') ∧
    length out = length jobs ∧
    st_jobs s' = st_jobs s ∧
    trace s' = trace s ++ added ∧
    Forall (λ ev, is_chat ev = true) added ∧
    length added ≤ length jobs ∧
    (key_set (OPENAI_API_KEY cfg) = None → added = []).
Proof. apply add_outreach_run. Qed.

(** X19: When [openai] cannot be imported and a key is set, every record gets
    the install hint with the text of the import error as its outreach:
    the hint is a normal result, not the error placeholder, and no call is
    made. *)
Theorem missing_openai_package cfg k e jobs s :
  key_set (OPENAI_API_KEY cfg) = Some k →
  import_openai (world s) = Some e →
  add_outreach cfg jobs s = (Ret (set_outreach (install_hint e) <$> jobs), s).
Proof.
  intros Hkey Himp. induction jobs as [|j rest IH]; [done|].
  assert (outreach_for cfg j s = (Ret (install_hint e), s)) as Ho.
  { unfold outreach_for, try_except, gen_outreach, mbind, M_bind.
    by rewrite Hkey, Himp. }
  simpl. rewrite (bind_ret _ _ _ _ _ Ho). by rewrite (bind_ret _ _ _ _ _ IH).
Qed.

(** X20: A raw description that is neither a string nor a list (null, say)
    passes normalisation unchanged and then stops [gen_outreach] at the
    slice, before the request: the record gets the error placeholder and
    the language model is not called for it. *)
Theorem unsliceable_description cfg k company m v e j s w1 :
  key_set (OPENAI_API_KEY cfg) = Some k →
  m !! lit "description" = Some v →
  py_prefix 240 v = inl e →
  normalize company (JObj m) = inr j →
  import_openai (world s) = None →
  openai_client k (world s) = (inr (), w1) →
  outreach_for cfg j s =
    (Ret (error_outreach e), State w1 (trace s) (st_jobs s)).
Proof.
  intros Hkey Hm Hv (_ & _ & _ & _ & Hd & _)%normalize_inr_fields Himp Hcl.
  rewrite Hm in Hd. simpl in Hd.
  unfold outreach_for, try_except, gen_outreach, mbind, M_bind, call.
  rewrite Hkey, Himp, Hcl, Hd, Hv. done.
Qed.

(** X21: A generated message comes back stripped: it neither starts nor ends
    with white space. *)
Theorem generated_text_trimmed k j s text s' :
  import_openai (world s) = None →
  gen_outreach k j s = (Ret text, s') →
  trimmed text.
Proof.
  intros Himp. unfold gen_outreach, mbind, M_bind, call, emit. rewrite Himp.
  destruct (openai_client k (world s)) as [[e|[]] w1]; simpl; [done|].
  destruct (py_prefix 240 (description j)) as [e|snippet]; simpl; [done|].
  destruct (chat_completion _ _ _) as [[e|content] w2]; simpl; [done|].
  destruct content as [| | |c| |]; simpl; try done. intros [= <- _].
  by destruct (strip_spec c) as (_ & _ & _ & _ & _ & ?).
Qed.

End OutreachProperties.

(** ** The digest *)

Lemma elem_of_replace c old new s :
  c ∈ replace old new s → c ∈ new ∨ (c ≠ old ∧ c ∈ s).
Proof.
  unfold replace. induction s as [|x s IH]; simpl; [by intros ?%elem_of_nil|].
  rewrite elem_of_app. intros [Hc|Hc].
  - destruct (N.eqb_spec x old) as [->|Hne]; [by left|].
    apply list_elem_of_singleton in Hc as ->. right. split; [done|by left].
  - destruct (IH Hc) as [?|[? ?]]; [by left|right]. split; [done|by right].
Qed.

Lemma markup_not_in_entities c :
  c ∈ markup_chars →
  (c ∉ lit "&#x27;") ∧ (c ∉ lit "&quot;") ∧ (c ∉ lit "&gt;") ∧
  (c ∉ lit "&lt;") ∧ (c ∉ lit "&amp;").
Proof.
  unfold markup_chars. rewrite !elem_of_cons, elem_of_nil.
  intros [->|[->|[->|[->|[]]]]];
    repeat split; apply (bool_decide_unpack _); by vm_compute.
Qed.

(** X22: Whatever [html.escape] returns is free of markup characters: a field
    of a record cannot open a tag or close an attribute in the digest. *)
Theorem escaped_field_has_no_markup v s :
  py_escape v = inr s → Forall (λ c, c ∉ markup_chars) s.
Proof.
  destruct v as [| | |t| |]; try done. intros [= <-].
  apply Forall_forall. intros c Hc Hm. unfold html_escape in Hc.
  destruct (markup_not_in_entities c Hm) as (H1 & H2 & H3 & H4 & H5).
  apply elem_of_replace in Hc as [?|[Hn1 Hc]]; [done|].
  apply elem_of_replace in Hc as [?|[Hn2 Hc]]; [done|].
  apply elem_of_replace in Hc as [?|[Hn3 Hc]]; [done|].
  apply elem_of_replace in Hc as [?|[Hn4 Hc]]; [done|].
  unfold markup_chars in Hm. rewrite !elem_of_cons, elem_of_nil in Hm.
  by destruct Hm as [->|[->|[->|[->|[]]]]].
Qed.

Lemma py_escape_or v d :
  (∃ s, py_escape (py_or v (JStr d)) = inr s) ↔ str_or_falsy v.
Proof.
  unfold py_or, str_or_falsy. destruct (truthy v) eqn:Hv.
  - split.
    + intros [s Hs]. right. destruct v; try done. by eexists.
    + intros [?|[s ->]]; [done|]. by eexists.
  - split; [by left|]. intros _. by eexists.
Qed.

Lemma py_strip_or v d :
  (∃ s, py_strip (py_or v (JStr d)) = inr s) ↔ str_or_falsy v.
Proof.
  unfold py_or, str_or_falsy. destruct (truthy v) eqn:Hv.
  - split.
    + intros [s Hs]. right. destruct v; try done. by eexists.
    + intros [?|[s ->]]; [done|]. by eexists.
  - split; [by left|]. intros _. by eexists.
Qed.

Lemma render_row_total n j :
  (∃ row, render_row n j = inr row) ↔ renderable j.
Proof.
  unfold render_row, renderable.
  rewrite <-(py_escape_or (title j) []), <-(py_escape_or (company_name j) []),
    <-(py_escape_or (location j) []), <-(py_escape_or (apply_link j) (lit "#")),
    <-(py_strip_or (description j) []).
  split.
  - intros [row H].
    apply exc_bind_inr in H as (t & Ht & H).
    apply exc_bind_inr in H as (c & Hc & H).
    apply exc_bind_inr in H as (l & Hl & H).
    apply exc_bind_inr in H as (a & Ha & H).
    apply exc_bind_inr in H as (d & Hd & H).
    repeat split; by eexists.
  - intros ([t Ht] & [c Hc] & [l Hl] & [a Ha] & [d Hd]).
    rewrite Ht, Hc, Hl, Ha, Hd. by eexists.
Qed.

(** X23: The table rows can be rendered exactly when every record's title,
    company name, location, apply link and description is a string or a
    value that counts as false; a number or a non-empty list or dict in
    one of them raises, and no digest is sent.  When they are rendered
    there is one row per record. *)
Theorem render_rows_total n jobs :
  ((∃ rows, render_rows n jobs = inr rows) ↔ Forall renderable jobs) ∧
  (∀ rows, render_rows n jobs = inr rows → length rows = length jobs).
Proof.
  split.
  - revert n. induction jobs as [|j rest IH]; intros n; simpl.
    + split; [constructor|by eexists].
    + rewrite Forall_cons, <-(render_row_total n j), <-(IH (S n)). split.
      * intros [rows H].
        apply exc_bind_inr in H as (row & Hrow & H).
        apply exc_bind_inr in H as (rows' & Hrows & H).
        split; by eexists.
      * intros [[row Hrow] [rows Hrows]]. rewrite Hrow. simpl.
        rewrite Hrows. by eexists.
  - revert n. induction jobs as [|j rest IH]; intros n rows; simpl.
    + by intros [= <-].
    + intros H.
      apply exc_bind_inr in H as (row & Hrow & H).
      apply exc_bind_inr in H as (rows' & Hrows & H).
      injection H as <-. simpl. f_equal. by eapply IH.
Qed.

(** ** The run as a whole *)

Section RunProperties.
Context {W : Type} `{!Runtime W}.
Implicit Types (s : @state W) (cfg : config).

(** Lines 154-178 on the enriched records and their rows. *)
Lemma deliver_run cfg (jobs : list job) (rows : list str) s2 :
  (now ← ist_now_str;
   now' ← ist_now_str;
   send_email (GMAIL_USER cfg) (GMAIL_APP_PASSWORD cfg) (TO_EMAIL cfg)
     (subject_of (length jobs) now) (html_body_of now' (rows_html_of rows));;
   emit (EvStdout (lit "Sent digest to " ++ TO_EMAIL cfg ++ lit " with "
                   ++ str_of_nat (length jobs) ++ lit " jobs."))) s2 =
  let '(t1, w1) := now_ist (world s2) in
  let '(t2, w2) := now_ist w1 in
  let subject := subject_of (length jobs) t1 in
  let body := html_body_of t2 (rows_html_of rows) in
  match smtp_send (GMAIL_USER cfg) (GMAIL_APP_PASSWORD cfg) (TO_EMAIL cfg)
          subject body w2 with
  | (inl e, w3) =>
      (Raise e, State w3 (trace s2 ++ [mail_event cfg subject body])
                      (st_jobs s2))
  | (inr _, w3) =>
      (Ret (), State w3 (trace s2 ++ [mail_event cfg subject body;
                                      summary_line cfg (length jobs)])
                     (st_jobs s2))
  end.
Proof.
  unfold ist_now_str, send_email, call, emit, mbind, M_bind,
    mail_event, summary_line.
  destruct (now_ist (world s2)) as [t1 w1]. simpl.
  destruct (now_ist w1) as [t2 w2]. simpl.
  destruct (smtp_send _ _ _ _ _ w2) as [[e|[]] w3]; simpl; [done|].
  by rewrite <-app_assoc.
Qed.

(** [run] by its stages. *)
Lemma run_stages cfg s s1 :
  aggregate cfg (COMPANIES cfg) (State (world s) (trace s) []) = (Ret (), s1) →
  run cfg s =
    match dedup_truncate (MAX_RESULTS cfg) (st_jobs s1) with
    | inl e => (Raise e, s1)
    | inr jobs =>
        match add_outreach cfg jobs s1 with
        | (Ret jobs', s2) =>
            match render_rows 1 jobs' with
            | inl e => (Raise e, s2)
            | inr rows =>
                let '(t1, w1) := now_ist (world s2) in
                let '(t2, w2) := now_ist w1 in
                let subject := subject_of (length jobs') t1 in
                let body := html_body_of t2 (rows_html_of rows) in
                match smtp_send (GMAIL_USER cfg) (GMAIL_APP_PASSWORD cfg)
                        (TO_EMAIL cfg) subject body w2 with
                | (inl e, w3) =>
                    (Raise e,
                     State w3 (trace s2 ++ [mail_event cfg subject body])
                           (st_jobs s2))
                | (inr _, w3) =>
                    (Ret (),
                     State w3 (trace s2 ++ [mail_event cfg subject body;
                                            summary_line cfg (length jobs')])
                           (st_jobs s2))
                end
            end
        | (Raise e, s2) => (Raise e, s2)
        | (Exit c, s2) => (Exit c, s2)
        end
    end.
Proof.
  intros Hagg. unfold run.
  rewrite (bind_ret _ _ s () (State (world s) (trace s) [])) by done.
  rewrite (bind_ret _ _ _ _ _ Hagg).
  rewrite (bind_ret _ _ s1 (st_jobs s1) s1) by done.
  destruct (dedup_truncate (MAX_RESULTS cfg) (st_jobs s1)) as [e|jobs].
  { by apply bind_raise. }
  rewrite (bind_ret _ _ s1 jobs s1) by done.
  destruct (add_outreach cfg jobs s1) as [[jobs'|e|c] s2] eqn:Hadd.
  2: by apply bind_raise.
  2: by apply bind_exit.
  rewrite (bind_ret _ _ _ _ _ Hadd).
  destruct (render_rows 1 jobs') as [e|rows].
  { by apply bind_raise. }
  rewrite (bind_ret _ _ s2 rows s2) by done.
  exact (deliver_run cfg jobs' rows s2).
Qed.

(** X24: A run goes through its phases in order and its trace shows it: first
    search calls, warnings and sleeps, then language-model calls, then at
    most one mail and, only after the mail was accepted, the summary
    line.  A run never ends by [sys.exit]; when it raises before the mail
    (an unhashable key, a row that cannot be rendered) nothing is sent,
    and when the sending raises the summary line is not printed. *)
Theorem run_phases cfg s r s' :
  run cfg s = (r, s') →
  ∃ loop chats tail,
    trace s' = trace s ++ loop ++ chats ++ tail ∧
    Forall (λ ev, is_loop_event ev = true) loop ∧
    Forall (λ ev, is_chat ev = true) chats ∧
    ((tail = [] ∧ ∃ e, r = Raise e) ∨
     (∃ subject body e,
        tail = [mail_event cfg subject body] ∧ r = Raise e) ∨
     (∃ subject body n,
        tail = [mail_event cfg subject body; summary_line cfg n] ∧
        r = Ret ())).
Proof.
  destruct (aggregate_run cfg (COMPANIES cfg) (State (world s) (trace s) []))
    as (s1 & loop & recs & Hagg & Htr1 & Hloop & _ & _).
  rewrite (run_stages _ _ _ Hagg). simpl in Htr1.
  destruct (dedup_truncate (MAX_RESULTS cfg) (st_jobs s1)) as [e|jobs].
  { intros [= <- <-]. exists loop, [], []. rewrite !app_nil_r.
    split; [done|]. split; [done|]. split; [constructor|]. left. eauto. }
  destruct (add_outreach_run cfg jobs s1)
    as (jobs' & s2 & chats & -> & _ & _ & Htr2 & Hchats & _).
  assert (trace s2 = trace s ++ loop ++ chats ++ []) as Htr.
  { by rewrite Htr2, Htr1, app_nil_r, app_assoc. }
  destruct (render_rows 1 jobs') as [e|rows].
  { intros [= <- <-]. exists loop, chats, [].
    split; [done|]. split; [done|]. split; [done|]. left. eauto. }
  destruct (now_ist (world s2)) as [t1 w1]. destruct (now_ist w1) as [t2 w2].
  simpl. destruct (smtp_send _ _ _ _ _ w2) as [[e|[]] w3];
    intros [= <- <-]; eexists loop, chats, _; simpl.
  - split; [by rewrite Htr2, Htr1, <-!app_assoc|].
    split; [done|]. split; [done|]. right. left. eauto.
  - split; [by rewrite Htr2, Htr1, <-!app_assoc|].
    split; [done|]. split; [done|]. right. right. eauto.
Qed.

(** X25: After a successful run the subject of the mail and the summary line
    report the same number of roles, and with a cap that is not negative
    that number is at most [MAX_RESULTS]. *)
Theorem run_success_count cfg s s' :
  run cfg s = (Ret (), s') →
  ∃ tr n now body,
    trace s' = tr ++ [mail_event cfg (subject_of n now) body;
                      summary_line cfg n] ∧
    ((0 ≤ MAX_RESULTS cfg)%Z → (Z.of_nat n ≤ MAX_RESULTS cfg)%Z).
Proof.
  destruct (aggregate_run cfg (COMPANIES cfg) (State (world s) (trace s) []))
    as (s1 & _ & _ & Hagg & _).
  rewrite (run_stages _ _ _ Hagg).
  destruct (dedup_truncate (MAX_RESULTS cfg) (st_jobs s1)) as [e|jobs] eqn:Hd;
    [done|].
  destruct (add_outreach_run cfg jobs s1)
    as (jobs' & s2 & _ & -> & Hlen & _).
  destruct (render_rows 1 jobs') as [e|rows]; [done|].
  destruct (now_ist (world s2)) as [t1 w1]. destruct (now_ist w1) as [t2 w2].
  simpl. destruct (smtp_send _ _ _ _ _ w2) as [[e|[]] w3]; [done|].
  intros [= <-]. eexists _, _, _, _. split; [done|]. simpl.
  intros Hcap. rewrite Hlen.
  unfold dedup_truncate in Hd. apply exc_bind_inr in Hd as (d & _ & [= <-]).
  unfold slice_to. rewrite (proj2 (Z.leb_le 0 _) Hcap), length_take. lia.
Qed.

(** X26: When the search loop ends without a record (every search failed or
    came back empty) the digest is sent all the same: its subject reports
    0 roles and its table body is the row saying that no fresh roles were
    found. *)
Theorem empty_digest cfg s s1 :
  aggregate cfg (COMPANIES cfg) (State (world s) (trace s) []) = (Ret (), s1) →
  st_jobs s1 = [] →
  ∃ r s' now now' tail,
    run cfg s = (r, s') ∧
    trace s' =
      trace s1 ++ mail_event cfg (subject_of 0 now)
                    (html_body_of now' no_roles_row) :: tail.
Proof.
  intros Hagg Hnone. rewrite (run_stages _ _ _ Hagg), Hnone.
  change (dedup_truncate (MAX_RESULTS cfg) []) with
    (inr (slice_to (MAX_RESULTS cfg) []) : exc (list job)).
  assert (slice_to (MAX_RESULTS cfg) (@nil job) = []) as ->.
  { unfold slice_to. destruct (_ <=? _)%Z; apply take_nil. }
  simpl. destruct (now_ist (world s1)) as [t1 w1].
  destruct (now_ist w1) as [t2 w2]. simpl.
  destruct (smtp_send _ _ _ _ _ w2) as [[e|[]] w3]; by eexists _, _, _, _, _.
Qed.

Lemma run_no_exit cfg s c s' : run cfg s ≠ (Exit c, s').
Proof.
  destruct (aggregate_run cfg (COMPANIES cfg) (State (world s) (trace s) []))
    as (s1 & _ & _ & Hagg & _).
  rewrite (run_stages _ _ _ Hagg).
  destruct (dedup_truncate (MAX_RESULTS cfg) (st_jobs s1)) as [e|jobs]; [done|].
  destruct (add_outreach_run cfg jobs s1) as (jobs' & s2 & _ & -> & _).
  destruct (render_rows 1 jobs') as [e|rows]; [done|].
  destruct (now_ist (world s2)) as [t1 w1]. destruct (now_ist w1) as [t2 w2].
  simpl. by destruct (smtp_send _ _ _ _ _ w2) as [[e|[]] w3].
Qed.

(** X27: [main] ends by [sys.exit] only with status 1, only because a required
    variable is missing or blank, and then it has done nothing but print
    the line that names it. *)
Theorem exit_only_when_missing environ s c s' :
  main environ s = (Exit c, s') →
  c = 1%Z ∧
  ∃ name, name ∈ required_vars ∧ missing_or_blank environ name ∧
          s' = State (world s) (trace s ++ [missing_line name]) (st_jobs s).
Proof.
  unfold main, mbind, M_bind.
  destruct (load_config environ s) as [[cfg|e|c0] s1] eqn:Hcfg.
  - intros H. by apply run_no_exit in H.
  - done.
  - intros [= -> ->].
    destruct (config_step_load environ _ _ _ Hcfg)
      as [[_ Hne]|(name & ? & ? & [= ->] & ->)].
    + by destruct (Hne c).
    + split; [done|]. by exists name.
Qed.

End RunProperties.

(** ** The further properties on the scripted runtime *)

Lemma load_config_quiet_witness :
  ∃ r s',
    @load_config _ scripted sample_env (start []) = (r, s') ∧
    s' = start [].
Proof.
  eexists _, _. split; [vm_compute; reflexivity|].
  destruct (@load_config_quiet _ scripted sample_env (start []) _ _
              ltac:(vm_compute; reflexivity))
    as [[H _]|(name & _ & _ & [=] & _)].
  exact H.
Defined.

Lemma sample_env_required name :
  name ∈ required_vars → ¬ missing_or_blank env_bad_cap name.
Proof.
  unfold required_vars. rewrite !elem_of_cons, elem_of_nil.
  intros [->|[->|[->|[->|[]]]]]; by vm_compute.
Qed.

Lemma bad_number_aborts_witness :
  @main _ scripted env_bad_cap (start []) =
    (Raise (ValueError (lit "many")), start []).
Proof.
  by apply (@bad_number_aborts _ scripted env_bad_cap (start [])
              sample_env_required).
Defined.

Lemma first_missing_reported_witness :
  @main _ scripted (delete (lit "GMAIL_USER") sample_env) (start []) =
    (Exit 1, State [] [missing_line "GMAIL_USER"] []).
Proof.
  apply (@first_missing_reported _ scripted _ (start [])
           ["SERPAPI_KEY"%string] "GMAIL_USER"
           ["GMAIL_APP_PASSWORD"; "TO_EMAIL"]%string).
  - reflexivity.
  - constructor; [by vm_compute|constructor].
  - by vm_compute.
Defined.

Lemma exit_only_when_missing_witness :
  ∃ name, name ∈ required_vars ∧
    missing_or_blank (delete (lit "GMAIL_USER") sample_env) name.
Proof.
  assert (@main _ scripted (delete (lit "GMAIL_USER") sample_env) (start [])
          = (Exit 1, State [] [missing_line "GMAIL_USER"] [])) as Hmain.
  { vm_compute. reflexivity. }
  destruct (@exit_only_when_missing _ scripted _ _ _ _ Hmain)
    as (_ & name & Hin & Hblank & _).
  by exists name.
Defined.

Lemma build_query_injective_witness :
  build_query sample_cfg (lit "Acme") = build_query sample_cfg (lit "Acme") ∧
  lit "Acme" = lit "Acme".
Proof.
  split; [reflexivity|].
  by apply (build_query_injective sample_cfg).
Defined.

Lemma company_success_witness :
  ∃ s', @company_step _ scripted sample_cfg (lit "Acme")
          (start world_two_items) = (Ret (), s') ∧
        length (st_jobs s') = 2.
Proof.
  destruct (@company_success _ scripted sample_cfg (lit "Acme")
              (start world_two_items) _ _ _
              ltac:(vm_compute; reflexivity) ltac:(vm_compute; reflexivity))
    as (recs & Hrecs & Hstep).
  { repeat constructor; by vm_compute. }
  eexists. split; [exact Hstep|]. simpl.
  apply Forall2_length in Hrecs. by rewrite <-Hrecs.
Defined.

Lemma aggregate_overshoot_witness :
  ∃ s' s0 c,
    @aggregate _ scripted sample_cfg [lit "Acme"; lit "Initech"]
      (start world_two_items) = (Ret (), s') ∧
    @company_step _ scripted sample_cfg c s0 = (Ret (), s').
Proof.
  destruct (@aggregate_overshoot _ scripted sample_cfg
              [lit "Acme"; lit "Initech"] (start world_two_items) _
              ltac:(vm_compute; reflexivity) ltac:(done))
    as (s0 & c & _ & Hstep & _).
  eexists _, s0, c. split; [vm_compute; reflexivity|exact Hstep].
Defined.

Lemma nonpositive_cap_one_search_witness :
  @aggregate _ scripted zero_cfg [lit "Acme"; lit "Initech"]
    (start world_two_items) =
  @company_step _ scripted zero_cfg (lit "Acme") (start world_two_items).
Proof. by apply (@nonpositive_cap_one_search _ scripted zero_cfg). Defined.

Lemma gen_outreach_call_witness :
  ∃ r s',
    @gen_outreach _ scripted (lit "sk-1") (mk_job "Backend Engineer" "Acme" "1")
      (start []) = (r, s') ∧
    length (trace s') ≤ 1.
Proof.
  eexists _, _. split; [vm_compute; reflexivity|].
  destruct (@gen_outreach_call _ scripted (lit "sk-1")
              (mk_job "Backend Engineer" "Acme" "1") (start []) _ _
              ltac:(vm_compute; reflexivity))
    as (_ & [->|(sn & -> & _)]); simpl; lia.
Defined.

Lemma missing_openai_package_witness :
  ∃ out,
    @add_outreach _ scripted_no_openai keyed_cfg sample_jobs (start []) =
      (Ret out, start []) ∧
    length out = 3.
Proof.
  eexists. split.
  - by apply (@missing_openai_package _ scripted_no_openai keyed_cfg
                (lit "sk-1")).
  - by rewrite length_fmap.
Defined.

Lemma unsliceable_description_witness :
  ∃ j,
    normalize (lit "Acme") (JObj fields_null_description) = inr j ∧
    @outreach_for _ scripted keyed_cfg j (start []) =
      (Ret (@error_outreach _ scripted (NotSubscriptable TNone)), start []).
Proof.
  eexists. split; [reflexivity|].
  by eapply (@unsliceable_description _ scripted keyed_cfg (lit "sk-1")
               (lit "Acme") fields_null_description JNull).
Defined.

Lemma generated_text_trimmed_witness :
  ∃ text s',
    @gen_outreach _ scripted_chatty (lit "sk-1")
      (mk_job "Backend Engineer" "Acme" "1") (start []) = (Ret text, s') ∧
    trimmed text.
Proof.
  eexists _, _. split; [vm_compute; reflexivity|].
  by eapply (@generated_text_trimmed _ scripted_chatty (lit "sk-1")
               (mk_job "Backend Engineer" "Acme" "1") (start []));
    [|vm_compute; reflexivity].
Defined.

Lemma escaped_field_has_no_markup_witness :
  ∃ s, py_escape (text "<b>Lead</b>") = inr s ∧
       Forall (λ c, c ∉ markup_chars) s.
Proof.
  eexists. split; [reflexivity|].
  by apply (escaped_field_has_no_markup (text "<b>Lead</b>")).
Defined.

Lemma run_phases_witness :
  ∃ s' loop chats tail,
    @run _ scripted sample_cfg (start world_two_items) = (Ret (), s') ∧
    trace s' = loop ++ chats ++ tail ∧ length tail = 2.
Proof.
  destruct (@run_phases _ scripted sample_cfg (start world_two_items) (Ret ()) _
              ltac:(vm_compute; reflexivity))
    as (loop & chats & tail & Htr & _ & _ &
        [[_ [e [=]]]|[(? & ? & e & _ & [=])|(sub & body & n & -> & _)]]).
  eexists _, loop, chats, _. split; [vm_compute; reflexivity|].
  split; [exact Htr|done].
Defined.

Lemma run_success_count_witness :
  ∃ s' tr n now body,
    @run _ scripted sample_cfg (start world_two_items) = (Ret (), s') ∧
    trace s' = tr ++ [mail_event sample_cfg (subject_of n now) body;
                      summary_line sample_cfg n] ∧
    n ≤ 20.
Proof.
  destruct (@run_success_count _ scripted sample_cfg (start world_two_items) _
              ltac:(vm_compute; reflexivity))
    as (tr & n & now & body & Htr & Hn).
  eexists _, tr, n, now, body. split; [vm_compute; reflexivity|].
  split; [exact Htr|]. specialize (Hn ltac:(done)). simpl in Hn. lia.
Defined.

Lemma empty_digest_witness :
  ∃ r s' now now',
    @run _ scripted sample_cfg (start []) = (r, s') ∧
    In (mail_event sample_cfg (subject_of 0 now)
          (html_body_of now' no_roles_row)) (trace s').
Proof.
  destruct (@empty_digest _ scripted sample_cfg (start []) _
              ltac:(vm_compute; reflexivity) ltac:(reflexivity))
    as (r & s' & now & now' & tail & Hrun & Htr).
  exists r, s', now, now'. split; [exact Hrun|].
  rewrite Htr. apply in_or_app. right. by left.
Defined.
